(** * The needle operator library ([python/needle/ops.py]): forward and
      backward rules of the tensor operators, and their shape laws.

    The operators of [ops.py] are embedded as graph-building functions over
    a small model of the array backend ([numpy], imported there as
    [array_api]) and of the graph engine ([needle.autograd]).  Array entries
    are real numbers: the rounding, infinities and NaNs of the backend's
    floating point are outside the model. *)

From Stdlib Require Import ZArith Reals Lra Lia.
From stdpp Require Import base numbers option list.

(** ** Arrays *)

(** An n-dimensional array: its shape and the entry at each multi-index.
    Only the entries at in-bounds multi-indices are meaningful. *)
Record NDArray := mkNDArray {
  shape : list nat;
  item : list nat -> R
}.

Definition ndim (a : NDArray) : nat := length (shape a).

(** Number of entries of an array of shape [s]. *)
Definition size_of (s : list nat) : nat := foldr Nat.mul 1 s.

(** [in_bounds s idx]: [idx] addresses an entry of an array of shape [s]. *)
Definition in_bounds (s idx : list nat) : Prop := Forall2 (fun i d => i < d) idx s.

(** Equality of arrays as [numpy.array_equal] sees it: same shape and the
    same entry at every position. *)
Definition array_equal (a b : NDArray) : Prop :=
  shape a = shape b /\ forall idx, in_bounds (shape a) idx -> item a idx = item b idx.

(** ** The array backend

    Modelled from the spec: the array/backend library ([numpy], section 6:
    elementwise arithmetic, [log], [exp], [maximum], [matmul], [swapaxes],
    [reshape], [broadcast_to], [sum]) is not part of the repository; its
    functions follow numpy's documented shape and value rules, and a call
    that numpy rejects with an exception is [None]. *)
Module array_api.

(** Shapes are aligned on their last axis: the shorter one is extended
    on the left with 1s. *)
Definition pad_left (n : nat) (s : list nat) : list nat :=
  replicate (n - length s) 1 ++ s.

Definition broadcast_dim (d1 d2 : nat) : option nat :=
  if decide (d1 = d2) then Some d1
  else if decide (d1 = 1) then Some d2
  else if decide (d2 = 1) then Some d1
  else None.

Definition broadcast_shapes (s1 s2 : list nat) : option (list nat) :=
  let n := length s1 `max` length s2 in
  mapM (fun p => broadcast_dim p.1 p.2) (zip (pad_left n s1) (pad_left n s2)).

(** The position in an operand of shape [s] that is read for position
    [idx] of the broadcast result: leading axes are dropped and an axis
    of size 1 is always read at 0. *)
Definition broadcast_index (s idx : list nat) : list nat :=
  zip_with (fun d i => if decide (d = 1) then 0 else i) s
           (drop (length idx - length s) idx).

Definition ewise (f : R -> R -> R) (a b : NDArray) : option NDArray :=
  s ← broadcast_shapes (shape a) (shape b);
  Some {| shape := s;
          item := fun idx => f (item a (broadcast_index (shape a) idx))
                               (item b (broadcast_index (shape b) idx)) |}.

Definition map_array (f : R -> R) (a : NDArray) : NDArray :=
  {| shape := shape a; item := fun idx => f (item a idx) |}.

(** A Python list of numbers used as an array operand, as in [[0]]. *)
Definition of_list (l : list R) : NDArray :=
  {| shape := [length l]; item := fun idx => nth (hd 0 idx) l 0%R |}.

Definition add := ewise Rplus.
Definition multiply := ewise Rmult.
Definition divide := ewise Rdiv.
Definition maximum := ewise Rmax.
Definition add_scalar (a : NDArray) (s : R) := map_array (fun x => (x + s)%R) a.
Definition multiply_scalar (a : NDArray) (s : R) := map_array (fun x => (x * s)%R) a.
Definition divide_scalar (a : NDArray) (s : R) := map_array (fun x => (x / s)%R) a.
Definition power (a : NDArray) (s : Z) := map_array (fun x => powerRZ x s) a.
Definition negative := map_array Ropp.
Definition log := map_array ln.
Definition exp := map_array Rtrigo_def.exp.

(** [a > s]: the boolean array of the comparison, with [True] as 1 and
    [False] as 0, the values it takes in arithmetic. *)
Definition greater_scalar (a : NDArray) (s : R) : NDArray :=
  map_array (fun x => if Rlt_dec s x then 1%R else 0%R) a.

(** An axis may be counted from the end with a negative number. *)
Definition normalize_axis (axis : Z) (n : nat) : option nat :=
  if decide (- Z.of_nat n ≤ axis < Z.of_nat n)%Z
  then Some (Z.to_nat (if decide (axis < 0)%Z then axis + Z.of_nat n else axis)%Z)
  else None.

Definition swap_list {A} (i j : nat) (l : list A) : list A :=
  match l !! i, l !! j with
  | Some x, Some y => <[j := x]> (<[i := y]> l)
  | _, _ => l
  end.

Definition swapaxes (a : NDArray) (axis1 axis2 : Z) : option NDArray :=
  i ← normalize_axis axis1 (ndim a);
  j ← normalize_axis axis2 (ndim a);
  Some {| shape := swap_list i j (shape a);
          item := fun idx => item a (swap_list i j idx) |}.

(** Row-major position of a multi-index, and back. *)
Definition ravel (s idx : list nat) : nat :=
  foldl (fun acc p => acc * p.1 + p.2) 0 (zip s idx).

Fixpoint unravel (s : list nat) (k : nat) : list nat :=
  match s with
  | [] => []
  | d :: s' => (k / size_of s') `mod` d :: unravel s' (k `mod` size_of s')
  end.

(** The shape a [reshape] to [newshape] gives an array of [sz] entries:
    one dimension may be -1 and is then inferred. *)
Definition reshape_target (sz : nat) (newshape : list Z) : option (list nat) :=
  let known := filter (fun d => d ≠ (-1)%Z) newshape in
  if decide (Forall (fun d => 0 ≤ d)%Z known) then
    let p := size_of (Z.to_nat <$> known) in
    match length newshape - length known with
    | 0 => if decide (p = sz) then Some (Z.to_nat <$> newshape) else None
    | 1 => if decide (p ≠ 0 ∧ sz `mod` p = 0)
           then Some ((fun d => if decide (d = -1)%Z then sz / p else Z.to_nat d) <$> newshape)
           else None
    | _ => None
    end
  else None.

Definition reshape (a : NDArray) (newshape : list Z) : option NDArray :=
  s ← reshape_target (size_of (shape a)) newshape;
  Some {| shape := s; item := fun idx => item a (unravel (shape a) (ravel s idx)) |}.

Definition to_nat_shape (shape : list Z) : option (list nat) :=
  mapM (fun d => if decide (0 ≤ d)%Z then Some (Z.to_nat d) else None) shape.

Definition broadcastable_to (s t : list nat) : bool :=
  bool_decide (length s ≤ length t) &&
  forallb (fun p => bool_decide (p.1 = p.2) || bool_decide (p.1 = 1))
          (zip (pad_left (length t) s) t).

Definition broadcast_to (a : NDArray) (shape' : list Z) : option NDArray :=
  t ← to_nat_shape shape';
  if broadcastable_to (shape a) t
  then Some {| shape := t; item := fun idx => item a (broadcast_index (shape a) idx) |}
  else None.

(** The axes of [s] that are not reduced, [pos] being the position of
    the head of [s]. *)
Fixpoint kept_axes {A} (pos : nat) (reduced : list nat) (s : list A) : list A :=
  match s with
  | [] => []
  | d :: s' =>
      if bool_decide (pos ∈ reduced) then kept_axes (S pos) reduced s'
      else d :: kept_axes (S pos) reduced s'
  end.

(** The positions of the operand that are added up into position [idx]
    of the result. *)
Fixpoint reduction_indices (pos : nat) (reduced s idx : list nat) : list (list nat) :=
  match s with
  | [] => [[]]
  | d :: s' =>
      if bool_decide (pos ∈ reduced)
      then v ← seq 0 d; (cons v) <$> reduction_indices (S pos) reduced s' idx
      else (cons (hd 0 idx)) <$> reduction_indices (S pos) reduced s' (tl idx)
  end.

Definition sum_list (l : list R) : R := foldr Rplus 0%R l.

Definition sum (a : NDArray) (axis : option (list Z)) : option NDArray :=
  reduced ← match axis with
            | None => Some (seq 0 (ndim a))
            | Some axes => mapM (fun ax => normalize_axis ax (ndim a)) axes
            end;
  if decide (NoDup reduced)
  then Some {| shape := kept_axes 0 reduced (shape a);
               item := fun idx => sum_list (item a <$> reduction_indices 0 reduced (shape a) idx) |}
  else None.

(** [matmul]: a 1-D operand is a row vector on the left and a column
    vector on the right, and the axis added for it is removed from the
    result; the axes before the last two are batch axes and broadcast. *)
Definition matmul (a b : NDArray) : option NDArray :=
  match shape a, shape b with
  | [], _ | _, [] => None
  | _, _ =>
      let va := bool_decide (ndim a = 1) in
      let vb := bool_decide (ndim b = 1) in
      let sa := if va then 1 :: shape a else shape a in
      let sb := if vb then shape b ++ [1] else shape b in
      let ba := take (length sa - 2) sa in
      let bb := take (length sb - 2) sb in
      match drop (length sa - 2) sa, drop (length sb - 2) sb with
      | [m; k], [k'; n] =>
          if decide (k = k') then
            batch ← broadcast_shapes ba bb;
            Some {| shape := batch ++ (if va then [] else [m]) ++ (if vb then [] else [n]);
                    item := fun idx =>
                      let bi := take (length batch) idx in
                      let rest := drop (length batch) idx in
                      let i := if va then 0 else hd 0 rest in
                      let j := if vb then 0 else List.last rest 0 in
                      sum_list ((fun t =>
                        (item a (if va then [t] else broadcast_index ba bi ++ [i; t]) *
                         item b (if vb then [t] else broadcast_index bb bi ++ [t; j]))%R)
                        <$> seq 0 k) |}
          else None
      | _, _ => None
      end
  end.

End array_api.

(** ** The operator catalogue and the graph engine *)

(** The operator classes of [ops.py] with the attributes their [__init__]
    stores.  [Summation] holds the normalised [self.axes]. *)
Inductive Op :=
  | EWiseAdd
  | AddScalar (scalar : R)
  | EWiseMul
  | MulScalar (scalar : R)
  | PowerScalar (scalar : Z)
  | EWiseDiv
  | DivScalar (scalar : R)
  | Transpose (axes : option (Z * Z))
  | Reshape (shape : list Z)
  | BroadcastTo (shape : list Z)
  | Summation (axes : option (list Z))
  | MatMul
  | Negate
  | Log
  | Exp
  | ReLU.

(** Modelled from the spec: the node of the graph engine
    ([needle.autograd.Tensor], sections 3 and 6), which is not under the
    repository's sources: a node is either built from an array
    ([Tensor(array)]) or records the operator that produces it and its
    ordered operand nodes. *)
#[warnings="-register-all"]
Inductive Tensor :=
  | Const (cached_data : NDArray)
  | MakeOp (op : Op) (inputs : list Tensor).

(** [node.inputs] *)
Definition inputs_of (node : Tensor) : list Tensor :=
  match node with
  | Const _ => []
  | MakeOp _ inputs => inputs
  end.

(** What a [gradient] method returns: one node, or a Python tuple of nodes. *)
Inductive GradResult :=
  | Single (t : Tensor)
  | Tuple (ts : list Tensor).

Module ops.

(** [Op.compute], by operator class.  A call with the wrong number of
    arrays is a [TypeError]. *)
Definition compute (self : Op) (args : list NDArray) : option NDArray :=
  match self, args with
  | EWiseAdd, [a; b] => array_api.add a b
  | AddScalar scalar, [a] => Some (array_api.add_scalar a scalar)
  | EWiseMul, [a; b] => array_api.multiply a b
  | MulScalar scalar, [a] => Some (array_api.multiply_scalar a scalar)
  | PowerScalar scalar, [a] => Some (array_api.power a scalar)
  | EWiseDiv, [a; b] => array_api.divide a b
  | DivScalar scalar, [a] => Some (array_api.divide_scalar a scalar)
  | Transpose axes, [a] =>
      let '(axis1, axis2) := match axes with Some p => p | None => (-2, -1)%Z end in
      array_api.swapaxes a axis1 axis2
  | Reshape shape, [a] => array_api.reshape a shape
  | BroadcastTo shape, [a] => array_api.broadcast_to a shape
  | Summation axes, [a] => array_api.sum a axes
  | MatMul, [a; b] => array_api.matmul a b
  | Negate, [a] => Some (array_api.negative a)
  | Log, [a] => Some (array_api.log a)
  | Exp, [a] => Some (array_api.exp a)
  | ReLU, [a] => array_api.maximum a (array_api.of_list [0%R])
  | _, _ => None
  end.

(** Modelled from the spec: [realize_cached_data] of the graph engine
    (section 6, "Node construction"): the value of a node is its
    operator's [compute] on the values of its operands.  An exception
    raised while a node is computed, at once or when it is first read,
    is [None]. *)
Fixpoint realize_cached_data (t : Tensor) : option NDArray :=
  match t with
  | Const cached_data => Some cached_data
  | MakeOp op inputs =>
      args ← (fix realize_all (ts : list Tensor) : option (list NDArray) :=
                match ts with
                | [] => Some []
                | t' :: ts' =>
                    a ← realize_cached_data t';
                    args ← realize_all ts';
                    Some (a :: args)
                end) inputs;
      compute op args
  end.

(** [Tensor.shape]: the shape of the realized value. *)
Definition shape_of (t : Tensor) : option (list nat) :=
  shape <$> realize_cached_data t.

(** A shape read from a node and handed to an operator as a parameter. *)
Definition as_tuple (s : list nat) : list Z := Z.of_nat <$> s.

(** *** The free functions of [ops.py] *)

Definition add (a b : Tensor) := MakeOp EWiseAdd [a; b].
Definition add_scalar (a : Tensor) (scalar : R) := MakeOp (AddScalar scalar) [a].
Definition multiply (a b : Tensor) := MakeOp EWiseMul [a; b].
Definition mul_scalar (a : Tensor) (scalar : R) := MakeOp (MulScalar scalar) [a].
Definition power_scalar (a : Tensor) (scalar : Z) := MakeOp (PowerScalar scalar) [a].
Definition divide (a b : Tensor) := MakeOp EWiseDiv [a; b].
Definition divide_scalar (a : Tensor) (scalar : R) := MakeOp (DivScalar scalar) [a].
Definition transpose (a : Tensor) (axes : option (Z * Z)) := MakeOp (Transpose axes) [a].
Definition reshape (a : Tensor) (shape : list Z) := MakeOp (Reshape shape) [a].
Definition broadcast_to (a : Tensor) (shape : list Z) := MakeOp (BroadcastTo shape) [a].

(** The [axes] argument of [Summation]: [None], one integer, or a tuple. *)
Inductive axes_arg :=
  | AxesNone
  | AxesInt (axis : Z)
  | AxesTuple (axes : list Z).

(** [Summation.__init__]:
    [self.axes = (axes,) if isinstance(axes, int) else axes] *)
Definition Summation_init (axes : axes_arg) : Op :=
  Summation (match axes with
             | AxesInt axis => Some [axis]
             | AxesTuple axes => Some axes
             | AxesNone => None
             end).

Definition summation (a : Tensor) (axes : axes_arg) := MakeOp (Summation_init axes) [a].
Definition matmul (a b : Tensor) := MakeOp MatMul [a; b].
Definition negate (a : Tensor) := MakeOp Negate [a].
Definition log (a : Tensor) := MakeOp Log [a].
Definition exp (a : Tensor) := MakeOp Exp [a].
Definition relu (a : Tensor) := MakeOp ReLU [a].

(** Modelled from the spec: the arithmetic operators of [Tensor]
    ([needle.autograd], not under the repository's sources), which the
    gradient rules are written with: with a node on the right they apply
    the elementwise operator, with a number the scalar one, and the unary
    minus applies [Negate]. *)
Definition Tensor_mul (a b : Tensor) := MakeOp EWiseMul [a; b].
Definition Tensor_mul_scalar (a : Tensor) (s : R) := MakeOp (MulScalar s) [a].
Definition Tensor_truediv (a b : Tensor) := MakeOp EWiseDiv [a; b].
Definition Tensor_truediv_scalar (a : Tensor) (s : R) := MakeOp (DivScalar s) [a].
Definition Tensor_pow (a : Tensor) (s : Z) := MakeOp (PowerScalar s) [a].
Definition Tensor_neg (a : Tensor) := MakeOp Negate [a].

(** *** The gradient rules *)

(** [BroadcastTo.gradient], the list of reduced axes:
    [[i for i in range(len(self.shape)) if self.shape[i] != unsqueezed[i]]].
    Reading a list out of range raises. *)
Definition differing_axes (shape unsqueezed : list Z) : option (list Z) :=
  foldr (fun i rest =>
           a ← shape !! i;
           b ← unsqueezed !! i;
           axes ← rest;
           Some (if decide (a ≠ b) then Z.of_nat i :: axes else axes))
        (Some []) (seq 0 (length shape)).

(** [Summation.gradient], the shape the output gradient is reshaped to:
    [out_shape = [1] * len(in_shape)], and when [self.axes] is not [None],
    for [i] in [range(len(out_shape))]: if [i not in self.axes] then
    [out_shape[i] = in_shape[i]]. *)
Definition restored_shape (axes : option (list Z)) (in_shape : list Z) : option (list Z) :=
  let out_shape := replicate (length in_shape) 1%Z in
  match axes with
  | None => Some out_shape
  | Some axes =>
      foldl (fun acc i =>
               out_shape ← acc;
               if decide (Z.of_nat i ∈ axes) then Some out_shape
               else d ← in_shape !! i; Some (<[i := d]> out_shape))
            (Some out_shape) (seq 0 (length out_shape))
  end.

(** [Op.gradient], by operator class.  A failed unpacking of
    [node.inputs], a read out of range and a shape that cannot be read
    because its node cannot be computed are [None]. *)
Definition gradient (self : Op) (out_grad node : Tensor) : option GradResult :=
  match self with
  | EWiseAdd => Some (Tuple [out_grad; out_grad])
  | AddScalar _ => Some (Single out_grad)
  | EWiseMul =>
      match inputs_of node with
      | [lhs; rhs] => Some (Tuple [Tensor_mul out_grad rhs; Tensor_mul out_grad lhs])
      | _ => None
      end
  | MulScalar scalar => Some (Tuple [Tensor_mul_scalar out_grad scalar])
  | PowerScalar scalar =>
      x ← inputs_of node !! 0;
      Some (Single (Tensor_mul (Tensor_mul_scalar out_grad (IZR scalar))
                               (Tensor_pow x (scalar - 1))))
  | EWiseDiv =>
      match inputs_of node with
      | [lhs; rhs] =>
          Some (Tuple [Tensor_truediv out_grad rhs;
                       Tensor_truediv (Tensor_mul (Tensor_neg out_grad) lhs) (Tensor_pow rhs 2)])
      | _ => None
      end
  | DivScalar scalar => Some (Single (Tensor_truediv_scalar out_grad scalar))
  | Transpose axes => Some (Single (transpose out_grad axes))
  | Reshape _ =>
      x ← inputs_of node !! 0;
      in_shape ← shape_of x;
      Some (Single (reshape out_grad (as_tuple in_shape)))
  | BroadcastTo shape =>
      x ← inputs_of node !! 0;
      in_shape ← shape_of x;
      let unsqueezed := replicate (length shape - length in_shape) 1%Z ++ as_tuple in_shape in
      axes ← differing_axes shape unsqueezed;
      Some (Single (reshape (summation out_grad (AxesTuple axes)) (as_tuple in_shape)))
  | Summation axes =>
      x ← inputs_of node !! 0;
      in_shape ← shape_of x;
      out_shape ← restored_shape axes (as_tuple in_shape);
      Some (Single (broadcast_to (reshape out_grad out_shape) (as_tuple in_shape)))
  | MatMul =>
      match inputs_of node with
      | [lhs; rhs] =>
          let grad_1 := matmul out_grad (transpose rhs None) in
          let grad_2 := matmul (transpose lhs None) out_grad in
          s1 ← shape_of grad_1; sl ← shape_of lhs;
          s2 ← shape_of grad_2; sr ← shape_of rhs;
          let batch_1 := (Z.of_nat (length s1) - Z.of_nat (length sl))%Z in
          let batch_2 := (Z.of_nat (length s2) - Z.of_nat (length sr))%Z in
          let grad_1 := if decide (batch_1 > 0)%Z
                        then summation grad_1 (AxesTuple (seqZ 0 batch_1)) else grad_1 in
          let grad_2 := if decide (batch_2 > 0)%Z
                        then summation grad_2 (AxesTuple (seqZ 0 batch_2)) else grad_2 in
          Some (Tuple [grad_1; grad_2])
      | _ => None
      end
  | Negate => Some (Single (negate out_grad))
  | Log =>
      x ← inputs_of node !! 0;
      Some (Single (Tensor_truediv out_grad x))
  | Exp =>
      x ← inputs_of node !! 0;
      Some (Single (Tensor_mul out_grad (exp x)))
  | ReLU =>
      x ← inputs_of node !! 0;
      input ← realize_cached_data x;
      Some (Single (Tensor_mul out_grad (Const (array_api.greater_scalar input 0%R))))
  end.

End ops.

(** ** Auxiliary definitions for the statements *)

(** Broadcasting of two shapes of the same rank, axis by axis. *)
Definition zip_broadcast (s1 s2 : list nat) : option (list nat) :=
  mapM (fun p => array_api.broadcast_dim p.1 p.2) (zip s1 s2).

(** Where position [k] of a list is after positions [i] and [j] are swapped. *)
Definition swap_index (i j k : nat) : nat :=
  if decide (k = i) then j else if decide (k = j) then i else k.

(** The shape [s] with size [one] at every position that [axes] names
    literally, [pos] being the position of the head of [s]. *)
Fixpoint unit_axes {A} (one : A) (pos : nat) (axes : list Z) (s : list A) : list A :=
  match s with
  | [] => []
  | d :: s' => (if decide (Z.of_nat pos ∈ axes) then one else d) :: unit_axes one (S pos) axes s'
  end.

(** The axes at which a target shape differs from the input shape
    left-padded with 1s to the target's rank. *)
Definition left_pad_ones (rank : nat) (in_shape : list Z) : list Z :=
  replicate (rank - length in_shape) 1%Z ++ in_shape.

Definition reduction_axes (target in_shape : list Z) : list nat :=
  filter (fun i => target !! i ≠ left_pad_ones (length target) in_shape !! i)
         (seq 0 (length target)).

(** The nodes of a gradient result, one per operand. *)
Definition grads_of (r : GradResult) : list Tensor :=
  match r with
  | Single t => [t]
  | Tuple ts => ts
  end.

(** The shape of [compute]'s result, from the shapes of its arguments. *)
Definition matmul_shape (sa sb : list nat) : option (list nat) :=
  match sa, sb with
  | [], _ | _, [] => None
  | _, _ =>
      let va := bool_decide (length sa = 1) in
      let vb := bool_decide (length sb = 1) in
      let sa' := if va then 1 :: sa else sa in
      let sb' := if vb then sb ++ [1] else sb in
      match drop (length sa' - 2) sa', drop (length sb' - 2) sb' with
      | [m; k], [k'; n] =>
          if decide (k = k') then
            batch ← array_api.broadcast_shapes (take (length sa' - 2) sa') (take (length sb' - 2) sb');
            Some (batch ++ (if va then [] else [m]) ++ (if vb then [] else [n]))
          else None
      | _, _ => None
      end
  end.

Definition compute_shape (self : Op) (in_shapes : list (list nat)) : option (list nat) :=
  match self, in_shapes with
  | (EWiseAdd | EWiseMul | EWiseDiv), [sa; sb] => array_api.broadcast_shapes sa sb
  | (AddScalar _ | MulScalar _ | PowerScalar _ | DivScalar _ | Negate | Log | Exp), [sa] =>
      Some sa
  | Transpose axes, [sa] =>
      let '(axis1, axis2) := match axes with Some p => p | None => (-2, -1)%Z end in
      i ← array_api.normalize_axis axis1 (length sa);
      j ← array_api.normalize_axis axis2 (length sa);
      Some (array_api.swap_list i j sa)
  | Reshape shape, [sa] => array_api.reshape_target (size_of sa) shape
  | BroadcastTo shape, [sa] =>
      t ← array_api.to_nat_shape shape;
      if array_api.broadcastable_to sa t then Some t else None
  | Summation axes, [sa] =>
      reduced ← match axes with
                | None => Some (seq 0 (length sa))
                | Some axes => mapM (fun ax => array_api.normalize_axis ax (length sa)) axes
                end;
      if decide (NoDup reduced) then Some (array_api.kept_axes 0 reduced sa) else None
  | MatMul, [sa; sb] => matmul_shape sa sb
  | ReLU, [sa] => array_api.broadcast_shapes sa [1]
  | _, _ => None
  end.

(** The number of operands of an operator: the arrays its [compute] takes. *)
Definition arity (self : Op) : nat :=
  match self with
  | EWiseAdd | EWiseMul | EWiseDiv | MatMul => 2
  | _ => 1
  end.

(** The batch axes of a matrix operand: all but its last two. *)
Definition batch_axes (s : list nat) : list nat := take (length s - 2) s.

(** ** The statements' vocabulary *)

(** A valid application of an operator: the forward computation of the
    node succeeds, and the output gradient handed to [gradient] has the
    node's shape. *)
Definition valid_application (self : Op) (inputs : list Tensor) (out_grad : Tensor) : Prop :=
  exists s, ops.shape_of (MakeOp self inputs) = Some s /\ ops.shape_of out_grad = Some s.

(** Two nodes that can be computed and have the same shape. *)
Definition same_shape (g x : Tensor) : Prop :=
  exists s, ops.shape_of g = Some s /\ ops.shape_of x = Some s.

(** [gradient] returns, and each node it returns has the shape of the
    operand at the same position. *)
Definition gradient_shapes_agree (self : Op) (inputs : list Tensor) (out_grad : Tensor) : Prop :=
  exists r, ops.gradient self out_grad (MakeOp self inputs) = Some r /\
            Forall2 same_shape (grads_of r) inputs.

(** The shape invariant of the gradient fan-out, for every operator and
    every valid application. *)
Definition gradient_shape_invariant : Prop :=
  forall self inputs out_grad,
    valid_application self inputs out_grad -> gradient_shapes_agree self inputs out_grad.

(** Applications in which no operand is implicitly stretched: the two
    operands of an elementwise operator have one shape; the operands of
    [MatMul] are matrices or batches of matrices and the batch axes of one
    are the trailing batch axes of the other; [Summation]'s axes are
    counted from the front; [ReLU]'s operand has at least one axis. *)
Definition explicit_shapes (self : Op) (in_shapes : list (list nat)) : Prop :=
  match self, in_shapes with
  | (EWiseAdd | EWiseMul | EWiseDiv), [sa; sb] => sa = sb
  | MatMul, [sa; sb] =>
      2 ≤ length sa /\ 2 ≤ length sb /\
      (batch_axes sa `suffix_of` batch_axes sb \/ batch_axes sb `suffix_of` batch_axes sa)
  | Summation (Some axes), [_] => Forall (fun ax => 0 ≤ ax)%Z axes
  | ReLU, [sa] => sa ≠ []
  | _, _ => True
  end.

(** [numpy.full]: the array of shape [s] with [v] at every position. *)
Definition full (s : list nat) (v : R) : NDArray :=
  {| shape := s; item := fun _ => v |}.

(** The array of shape [s] that holds at each position its row-major rank. *)
Definition iota (s : list nat) : NDArray :=
  {| shape := s; item := fun idx => INR (array_api.ravel s idx) |}.

(** [gradient] returns one node for an operator of one operand, and a
    tuple with one node per operand for an operator of several. *)
Definition gradient_result_by_arity : Prop :=
  forall self inputs out_grad,
    valid_application self inputs out_grad ->
    exists r, ops.gradient self out_grad (MakeOp self inputs) = Some r /\
      (length inputs = 1 -> exists t, r = Single t) /\
      (1 < length inputs -> exists ts, r = Tuple ts /\ length ts = length inputs).

(** The raw gradient of a [MatMul] operand, or its sum over leading axes. *)
Definition batch_reduced (raw t : Tensor) : Prop :=
  t = raw \/ exists k, (0 < k)%Z /\ t = ops.summation raw (ops.AxesTuple (seqZ 0 k)).

(** What [gradient] returns, by operator: the kind of result, and for the
    operators of two operands the gradient of each operand, the left one
    first. *)
Definition gradient_result_shape (self : Op) (out_grad : Tensor) (inputs : list Tensor)
    (r : GradResult) : Prop :=
  match self, inputs with
  | EWiseAdd, [_; _] => r = Tuple [out_grad; out_grad]
  | EWiseMul, [lhs; rhs] =>
      r = Tuple [ops.Tensor_mul out_grad rhs; ops.Tensor_mul out_grad lhs]
  | EWiseDiv, [lhs; rhs] =>
      r = Tuple [ops.Tensor_truediv out_grad rhs;
                 ops.Tensor_truediv (ops.Tensor_mul (ops.Tensor_neg out_grad) lhs)
                                    (ops.Tensor_pow rhs 2)]
  | MatMul, [lhs; rhs] =>
      exists t1 t2, r = Tuple [t1; t2] /\
        batch_reduced (ops.matmul out_grad (ops.transpose rhs None)) t1 /\
        batch_reduced (ops.matmul (ops.transpose lhs None) out_grad) t2
  | MulScalar _, [_] => exists t, r = Tuple [t]
  | _, [_] => exists t, r = Single t
  | _, _ => False
  end.

(** Applications on which the nodes that [gradient] builds can be
    computed: the operands of [MatMul] are matrices or batches of matrices
    (its gradient transposes both with the default axes), and the axes of
    [Summation], when given, are counted from the front (its gradient
    tests the positions of the operand's axes against them). *)
Definition gradient_computable_on (self : Op) (in_shapes : list (list nat)) : Prop :=
  match self with
  | MatMul => Forall (fun s => 2 ≤ length s) in_shapes
  | Summation (Some axes) => Forall (fun ax => 0 ≤ ax)%Z axes
  | _ => True
  end.

(** A node that can be computed: reading its value raises nothing. *)
Definition computable (t : Tensor) : Prop :=
  exists v, ops.realize_cached_data t = Some v.

(** The forward computation of [ReLU] is, on every array, the array of
    the same shape that holds the maximum of each entry and 0. *)
Definition ReLU_is_elementwise_maximum : Prop :=
  forall a, exists r, ops.compute ReLU [a] = Some r /\
    array_equal r (array_api.map_array (fun t => Rmax t 0) a).

(** The gradient rule of an operator of one operand that works entry
    by entry with [f]: on an operand and an output gradient of one shape,
    the forward entries are [f] of the operand's, [gradient] returns one
    node, and where [dom] holds its entries are the output gradient's
    times the derivative of [f] at the operand's entry. *)
Definition pointwise_vjp (self : Op) (f : R -> R) (dom : R -> Prop) : Prop :=
  forall x out_grad vx vg,
    ops.realize_cached_data x = Some vx ->
    ops.realize_cached_data out_grad = Some vg ->
    shape vg = shape vx ->
    exists r res t v,
      ops.compute self [vx] = Some r /\
      ops.gradient self out_grad (MakeOp self [x]) = Some res /\
      grads_of res = [t] /\
      ops.realize_cached_data t = Some v /\
      shape v = shape vx /\
      forall idx, in_bounds (shape vx) idx ->
        item r idx = f (item vx idx) /\
        (dom (item vx idx) ->
         exists l, derivable_pt_lim f (item vx idx) l /\
                   item v idx = (item vg idx * l)%R).

(** The same for an operator of two operands that works entry by entry
    with [f], with the partial derivatives of [f] in each operand. *)
Definition pointwise_vjp2 (self : Op) (f : R -> R -> R) (dom : R -> R -> Prop) : Prop :=
  forall a b out_grad va vb vg,
    ops.realize_cached_data a = Some va ->
    ops.realize_cached_data b = Some vb ->
    ops.realize_cached_data out_grad = Some vg ->
    shape va = shape vb -> shape vg = shape va ->
    exists r ta tb v1 v2,
      ops.compute self [va; vb] = Some r /\
      ops.gradient self out_grad (MakeOp self [a; b]) = Some (Tuple [ta; tb]) /\
      ops.realize_cached_data ta = Some v1 /\
      ops.realize_cached_data tb = Some v2 /\
      shape v1 = shape va /\ shape v2 = shape vb /\
      forall idx, in_bounds (shape va) idx ->
        item r idx = f (item va idx) (item vb idx) /\
        (dom (item va idx) (item vb idx) ->
         exists l1 l2,
           derivable_pt_lim (fun t => f t (item vb idx)) (item va idx) l1 /\
           derivable_pt_lim (fun t => f (item va idx) t) (item vb idx) l2 /\
           item v1 idx = (item vg idx * l1)%R /\
           item v2 idx = (item vg idx * l2)%R).

(** ** Shape laws of the backend *)

Section backend_shapes.
Import array_api.

Lemma pad_left_full n s : n ≤ length s -> pad_left n s = s.
Proof. intros H. unfold pad_left. by replace (n - length s) with 0 by lia. Qed.

Lemma length_pad_left n s : length s ≤ n -> length (pad_left n s) = n.
Proof. intros H. unfold pad_left. rewrite length_app, length_replicate. lia. Qed.

Lemma size_of_app s1 s2 : size_of (s1 ++ s2) = size_of s1 * size_of s2.
Proof. induction s1 as [|d s1 IH]; simpl; [lia|]. rewrite IH. lia. Qed.

Lemma size_of_ones n : size_of (replicate n 1) = 1.
Proof. induction n as [|n IH]; simpl; lia. Qed.

Lemma size_of_pad_left n s : size_of (pad_left n s) = size_of s.
Proof. unfold pad_left. rewrite size_of_app, size_of_ones. lia. Qed.

Lemma broadcast_dim_same d : broadcast_dim d d = Some d.
Proof. unfold broadcast_dim. by rewrite decide_True. Qed.

Lemma broadcast_dim_one_r d : broadcast_dim d 1 = Some d.
Proof. unfold broadcast_dim. repeat case_decide; congruence. Qed.

Lemma broadcast_dim_one_l d : broadcast_dim 1 d = Some d.
Proof. unfold broadcast_dim. repeat case_decide; congruence. Qed.

(** The result of a broadcast absorbs each of its operands. *)
Lemma broadcast_dim_absorb_r d1 d2 d :
  broadcast_dim d1 d2 = Some d -> broadcast_dim d d2 = Some d.
Proof. unfold broadcast_dim. repeat case_decide; naive_solver. Qed.

Lemma broadcast_dim_absorb_l d1 d2 d :
  broadcast_dim d1 d2 = Some d -> broadcast_dim d1 d = Some d.
Proof. unfold broadcast_dim. repeat case_decide; naive_solver. Qed.

Lemma broadcast_shapes_zip s1 s2 :
  broadcast_shapes s1 s2 =
  zip_broadcast (pad_left (length s1 `max` length s2) s1)
                (pad_left (length s1 `max` length s2) s2).
Proof. reflexivity. Qed.

Lemma zip_broadcast_cons d1 d2 s1 s2 :
  zip_broadcast (d1 :: s1) (d2 :: s2) =
  d ← broadcast_dim d1 d2; s ← zip_broadcast s1 s2; Some (d :: s).
Proof. reflexivity. Qed.

Lemma zip_broadcast_length s1 s2 o :
  length s1 = length s2 -> zip_broadcast s1 s2 = Some o -> length o = length s1.
Proof.
  intros Hlen H. apply length_mapM in H. rewrite length_zip in H. lia.
Qed.

Lemma zip_broadcast_same s : zip_broadcast s s = Some s.
Proof.
  induction s as [|d s IH]; [done|].
  by rewrite zip_broadcast_cons, broadcast_dim_same, IH.
Qed.

Lemma zip_broadcast_ones_r s : zip_broadcast s (replicate (length s) 1) = Some s.
Proof.
  induction s as [|d s IH]; [done|]. simpl replicate.
  by rewrite zip_broadcast_cons, broadcast_dim_one_r, IH.
Qed.

Lemma zip_broadcast_absorb_r s1 s2 o :
  length s1 = length s2 -> zip_broadcast s1 s2 = Some o -> zip_broadcast o s2 = Some o.
Proof.
  revert s2 o. induction s1 as [|d1 s1 IH]; intros [|d2 s2] o Hlen H;
    simpl in Hlen; try discriminate; [by injection H as <-|].
  rewrite zip_broadcast_cons in H.
  destruct (broadcast_dim d1 d2) as [d|] eqn:Hd; simplify_eq/=.
  destruct (zip_broadcast s1 s2) as [s|] eqn:Hs; simplify_eq/=.
  rewrite zip_broadcast_cons, (broadcast_dim_absorb_r _ _ _ Hd). simpl.
  by rewrite (IH s2 s).
Qed.

Lemma zip_broadcast_absorb_l s1 s2 o :
  length s1 = length s2 -> zip_broadcast s1 s2 = Some o -> zip_broadcast s1 o = Some o.
Proof.
  revert s2 o. induction s1 as [|d1 s1 IH]; intros [|d2 s2] o Hlen H;
    simpl in Hlen; try discriminate; [by injection H as <-|].
  rewrite zip_broadcast_cons in H.
  destruct (broadcast_dim d1 d2) as [d|] eqn:Hd; simplify_eq/=.
  destruct (zip_broadcast s1 s2) as [s|] eqn:Hs; simplify_eq/=.
  rewrite zip_broadcast_cons, (broadcast_dim_absorb_l _ _ _ Hd). simpl.
  by rewrite (IH s2 s).
Qed.

Lemma broadcast_shapes_length s1 s2 o :
  broadcast_shapes s1 s2 = Some o -> length o = length s1 `max` length s2.
Proof.
  rewrite broadcast_shapes_zip. intros H.
  apply zip_broadcast_length in H; rewrite ?length_pad_left in *; lia.
Qed.

Lemma broadcast_shapes_same s : broadcast_shapes s s = Some s.
Proof.
  rewrite broadcast_shapes_zip, pad_left_full by lia. apply zip_broadcast_same.
Qed.

(** Against the one-entry operand [[0]] an array of rank at least 1
    keeps its shape. *)
Lemma broadcast_shapes_one s : s ≠ [] -> broadcast_shapes s [1] = Some s.
Proof.
  intros Hs. rewrite broadcast_shapes_zip.
  assert (0 < length s) by (destruct s; simpl; [done|lia]).
  replace (length s `max` length [1]) with (length s) by (simpl; lia).
  rewrite pad_left_full by lia. unfold pad_left. simpl length.
  replace (replicate (length s - 1) 1 ++ [1]) with (replicate (length s) 1).
  - apply zip_broadcast_ones_r.
  - replace (length s) with (S (length s - 1)) at 1 by lia.
    by rewrite replicate_S_end.
Qed.

Lemma broadcast_shapes_absorb_r s1 s2 o :
  broadcast_shapes s1 s2 = Some o -> broadcast_shapes o s2 = Some o.
Proof.
  intros H. pose proof (broadcast_shapes_length _ _ _ H) as Hlen.
  rewrite broadcast_shapes_zip in *.
  replace (length o `max` length s2) with (length s1 `max` length s2) by lia.
  rewrite (pad_left_full _ o) by lia.
  eapply zip_broadcast_absorb_r; [|done]. rewrite !length_pad_left; lia.
Qed.

Lemma broadcast_shapes_absorb_l s1 s2 o :
  broadcast_shapes s1 s2 = Some o -> broadcast_shapes s1 o = Some o.
Proof.
  intros H. pose proof (broadcast_shapes_length _ _ _ H) as Hlen.
  rewrite broadcast_shapes_zip in *.
  replace (length s1 `max` length o) with (length s1 `max` length s2) by lia.
  rewrite (pad_left_full _ o) by lia.
  eapply zip_broadcast_absorb_l; [|done]. rewrite !length_pad_left; lia.
Qed.

(** An in-bounds position of an array is read at itself when the array
    is not stretched. *)
Lemma broadcast_index_in_bounds s idx :
  in_bounds s idx -> broadcast_index s idx = idx.
Proof.
  intros H. unfold broadcast_index.
  pose proof H as Hlen. apply Forall2_length in Hlen.
  rewrite Hlen, Nat.sub_diag, drop_0. clear Hlen.
  induction H as [|i d idx s Hi H IH]; [done|]. simpl. rewrite IH.
  case_decide; [|done]. f_equal. lia.
Qed.

End backend_shapes.

Section backend_axes.
Import array_api.

Lemma normalize_axis_lt axis n i : normalize_axis axis n = Some i -> i < n.
Proof. unfold normalize_axis. repeat case_decide; intros; simplify_eq; lia. Qed.

Lemma normalize_axis_nonneg (i n : nat) :
  i < n -> normalize_axis (Z.of_nat i) n = Some i.
Proof.
  intros Hi. unfold normalize_axis.
  rewrite decide_True by lia. rewrite decide_False by lia. f_equal. lia.
Qed.

(** A non-negative axis that numpy accepts is its own position. *)
Lemma normalize_axis_nonneg_inv axis n i :
  (0 ≤ axis)%Z -> normalize_axis axis n = Some i -> axis = Z.of_nat i.
Proof.
  unfold normalize_axis. intros Hax. case_decide; [|done].
  rewrite decide_False by lia. intros; simplify_eq. lia.
Qed.

(** A negative axis that numpy accepts counts from the end. *)
Lemma normalize_axis_neg_inv axis n i :
  (axis < 0)%Z -> normalize_axis axis n = Some i -> Z.of_nat i = (axis + Z.of_nat n)%Z.
Proof.
  unfold normalize_axis. intros Hax. case_decide; [|done].
  rewrite decide_True by lia. intros; simplify_eq. lia.
Qed.

Lemma swap_index_involutive i j k : swap_index i j (swap_index i j k) = k.
Proof. unfold swap_index. repeat case_decide; congruence. Qed.

Lemma length_swap_list {A} i j (l : list A) : length (swap_list i j l) = length l.
Proof.
  unfold swap_list. destruct (l !! i), (l !! j); try done.
  by rewrite !length_insert.
Qed.

Lemma lookup_swap_list {A} i j (l : list A) k :
  i < length l -> j < length l -> swap_list i j l !! k = l !! swap_index i j k.
Proof.
  intros Hi Hj. unfold swap_list, swap_index.
  destruct (lookup_lt_is_Some_2 l i Hi) as [x Hx].
  destruct (lookup_lt_is_Some_2 l j Hj) as [y Hy].
  rewrite Hx, Hy.
  destruct (decide (k = j)) as [->|Hkj].
  - rewrite list_lookup_insert_eq by (rewrite length_insert; lia).
    case_decide; congruence.
  - rewrite list_lookup_insert_ne by done.
    destruct (decide (k = i)) as [->|Hki].
    + by rewrite list_lookup_insert_eq by lia.
    + by rewrite list_lookup_insert_ne by done.
Qed.

(** Swapping the same two positions twice restores the list. *)
Lemma swap_list_involutive {A} i j (l : list A) :
  swap_list i j (swap_list i j l) = l.
Proof.
  destruct (decide (i < length l ∧ j < length l)) as [[Hi Hj]|Hout].
  - apply list_eq. intros k.
    rewrite !lookup_swap_list by (rewrite ?length_swap_list; lia).
    by rewrite swap_index_involutive.
  - assert (swap_list i j l = l) as Hid.
    { unfold swap_list.
      destruct (l !! i) eqn:Hx; [|done]. destruct (l !! j) eqn:Hy; [|done].
      apply lookup_lt_Some in Hx, Hy. lia. }
    by rewrite !Hid.
Qed.

(** The default axis pair swaps the last two axes. *)
Lemma swap_list_last_two {A} (b : list A) (x y : A) :
  swap_list (length b) (S (length b)) (b ++ [x; y]) = b ++ [y; x].
Proof.
  unfold swap_list.
  rewrite (lookup_app_r b) by lia. rewrite Nat.sub_diag. simpl.
  rewrite (lookup_app_r b) by lia.
  replace (S (length b) - length b) with 1 by lia. simpl.
  replace (S (length b)) with (length b + 1) by lia.
  rewrite <- (Nat.add_0_r (length b)) at 2.
  by rewrite !insert_app_r.
Qed.

Lemma to_nat_shape_as_tuple s : to_nat_shape (Z.of_nat <$> s) = Some s.
Proof.
  unfold to_nat_shape. apply mapM_fmap_Some. intros d.
  rewrite decide_True by lia. f_equal. lia.
Qed.

Lemma to_nat_shape_inv shape' t : to_nat_shape shape' = Some t -> shape' = Z.of_nat <$> t.
Proof.
  unfold to_nat_shape. intros H. symmetry.
  eapply mapM_fmap_Some_inv; [done|]. intros d n. simpl.
  case_decide; intros; simplify_eq. lia.
Qed.

Lemma to_nat_of_nat_fmap (s : list nat) : Z.to_nat <$> (Z.of_nat <$> s) = s.
Proof.
  rewrite <- list_fmap_compose. rewrite <- (list_fmap_id s) at 2.
  apply list_fmap_ext. intros _ d _. simpl. lia.
Qed.

(** *** [reshape] *)

Lemma filter_all {A} (P : A -> Prop) `{forall x, Decision (P x)} (l : list A) :
  Forall P l -> filter P l = l.
Proof.
  induction 1 as [|x l Hx Hl IH]; [done|].
  by rewrite filter_cons_True, IH.
Qed.

Lemma filter_length_all {A} (P : A -> Prop) `{forall x, Decision (P x)} (l : list A) :
  length l - length (filter P l) = 0 -> filter P l = l.
Proof.
  induction l as [|x l IH]; [done|]. intros Hlen.
  pose proof (length_filter P l) as Hle.
  destruct (decide (P x)) as [Hx|Hx].
  - rewrite filter_cons_True in * by done. simpl in Hlen. rewrite IH; [done|lia].
  - rewrite filter_cons_False in * by done. simpl in Hlen. lia.
Qed.

(** A target shape of non-negative sizes is taken as it is when it has
    the right number of entries. *)
Lemma reshape_target_nonneg sz (newshape : list Z) :
  Forall (fun d => 0 ≤ d)%Z newshape ->
  size_of (Z.to_nat <$> newshape) = sz ->
  reshape_target sz newshape = Some (Z.to_nat <$> newshape).
Proof.
  intros Hpos Hsz. unfold reshape_target.
  rewrite (filter_all (fun d => d ≠ (-1)%Z)).
  - rewrite decide_True by done. rewrite Nat.sub_diag.
    by rewrite decide_True.
  - eapply Forall_impl; [exact Hpos|]. intros d Hd Heq. simpl in *. lia.
Qed.

Lemma reshape_target_as_tuple s :
  reshape_target (size_of s) (Z.of_nat <$> s) = Some s.
Proof.
  rewrite reshape_target_nonneg.
  - by rewrite to_nat_of_nat_fmap.
  - apply Forall_fmap, Forall_true. intros d. simpl. lia.
  - by rewrite to_nat_of_nat_fmap.
Qed.

Lemma size_of_inferred q (newshape : list Z) :
  size_of ((fun d => if decide (d = -1)%Z then q else Z.to_nat d) <$> newshape) =
  size_of (Z.to_nat <$> filter (fun d => d ≠ (-1)%Z) newshape) *
  q ^ (length newshape - length (filter (fun d => d ≠ (-1)%Z) newshape)).
Proof.
  induction newshape as [|d l IH]; [done|].
  pose proof (length_filter (fun d => d ≠ (-1)%Z) l) as Hle.
  rewrite fmap_cons. simpl size_of. rewrite IH.
  destruct (decide (d = (-1)%Z)) as [->|Hd].
  - rewrite filter_cons_False by (intros ?; done). simpl length.
    replace (S (length l) - length (filter (fun d => d ≠ (-1)%Z) l))
      with (S (length l - length (filter (fun d => d ≠ (-1)%Z) l))) by lia.
    rewrite Nat.pow_succ_r'. ring.
  - rewrite filter_cons_True by done. rewrite fmap_cons. simpl size_of. simpl length.
    rewrite Nat.sub_succ. ring.
Qed.

(** [reshape] keeps the number of entries. *)
Lemma reshape_target_size sz newshape s :
  reshape_target sz newshape = Some s -> size_of s = sz.
Proof.
  unfold reshape_target. case_decide; [|done].
  destruct (length newshape - length (filter (fun d => d ≠ (-1)%Z) newshape))
    as [|[|n]] eqn:Hunknown; [| |done].
  - case_decide; [|done]. intros; simplify_eq.
    by rewrite filter_length_all in * by done.
  - case_decide as Hp; [|done]. destruct Hp as [Hp0 Hmod]. intros; simplify_eq.
    rewrite size_of_inferred, Hunknown, Nat.pow_1_r.
    apply Nat.Div0.div_exact in Hmod. lia.
Qed.

End backend_axes.

Section backend_reductions.
Import array_api.

(** Removing the first [k] axes. *)
Lemma kept_axes_prefix {A} pos k (s : list A) :
  kept_axes pos (seq 0 k) s = drop (k - pos) s.
Proof.
  revert pos. induction s as [|d s IH]; intros pos; simpl.
  - by rewrite drop_nil.
  - case_bool_decide as Hin; rewrite elem_of_seq in Hin; rewrite IH.
    + replace (k - pos) with (S (k - S pos)) by lia. done.
    + replace (k - pos) with 0 by lia. replace (k - S pos) with 0 by lia. done.
Qed.

Lemma normalize_axes_seqZ (k : Z) n :
  (k ≤ Z.of_nat n)%Z ->
  mapM (fun ax => normalize_axis ax n) (seqZ 0 k) = Some (seq 0 (Z.to_nat k)).
Proof.
  intros Hk. unfold seqZ. apply mapM_fmap_Forall_Some.
  apply Forall_forall. intros i Hi. apply elem_of_seq in Hi.
  rewrite Z.add_0_r. apply normalize_axis_nonneg. lia.
Qed.

Lemma normalize_axes_of_nat (l : list nat) n :
  Forall (fun i => i < n) l ->
  mapM (fun ax => normalize_axis ax n) (Z.of_nat <$> l) = Some l.
Proof.
  intros Hl. apply mapM_fmap_Forall_Some.
  eapply Forall_impl; [exact Hl|]. intros i Hi. by apply normalize_axis_nonneg.
Qed.

(** The positions numpy reduces for non-negative axes are the axes
    themselves. *)
Lemma normalize_axes_nonneg axes n reduced :
  Forall (fun ax => 0 ≤ ax)%Z axes ->
  mapM (fun ax => normalize_axis ax n) axes = Some reduced ->
  axes = Z.of_nat <$> reduced.
Proof.
  intros Hpos Hm. apply mapM_Some_1 in Hm.
  induction Hm as [|ax i axes reduced Hi Hm IH]; [done|].
  inversion Hpos; subst. rewrite fmap_cons. f_equal; [|by apply IH].
  by eapply normalize_axis_nonneg_inv.
Qed.

Lemma length_unit_axes {A} (one : A) pos axes s :
  length (unit_axes one pos axes s) = length s.
Proof. revert pos. induction s as [|d s IH]; intros pos; simpl; [done|]. by rewrite IH. Qed.

Lemma unit_axes_to_nat pos axes (s : list nat) :
  Z.to_nat <$> unit_axes 1%Z pos axes (Z.of_nat <$> s) = unit_axes 1 pos axes s.
Proof.
  revert pos. induction s as [|d s IH]; intros pos; [done|].
  rewrite fmap_cons. simpl. rewrite IH. f_equal. case_decide; lia.
Qed.

Lemma unit_axes_nonneg pos axes (s : list nat) :
  Forall (fun d => 0 ≤ d)%Z (unit_axes 1%Z pos axes (Z.of_nat <$> s)).
Proof.
  revert pos. induction s as [|d s IH]; intros pos; [constructor|].
  rewrite fmap_cons. simpl. constructor; [|apply IH]. case_decide; lia.
Qed.

(** No axis named by [axes]: nothing is set to 1. *)
Lemma unit_axes_none {A} (one : A) pos axes s :
  Forall (fun ax => ax < 0)%Z axes -> unit_axes one pos axes s = s.
Proof.
  intros Hneg. revert pos. induction s as [|d s IH]; intros pos; simpl; [done|].
  rewrite IH. rewrite decide_False; [done|].
  intros Hin. rewrite Forall_forall in Hneg. apply Hneg in Hin. lia.
Qed.

(** The reduced array has as many entries as the shape with 1 at the
    reduced axes. *)
Lemma size_of_kept_unit pos axes reduced (s : list nat) :
  (forall i, Z.of_nat i ∈ axes <-> i ∈ reduced) ->
  size_of (kept_axes pos reduced s) = size_of (unit_axes 1 pos axes s).
Proof.
  intros Hmem. revert pos. induction s as [|d s IH]; intros pos; simpl; [done|].
  case_bool_decide as Hin; rewrite <- Hmem in Hin.
  - rewrite decide_True by done. rewrite IH. lia.
  - rewrite decide_False by done. simpl. by rewrite IH.
Qed.

Lemma broadcastable_to_same_rank u t :
  length u = length t ->
  broadcastable_to u t =
  forallb (fun p => bool_decide (p.1 = p.2) || bool_decide (p.1 = 1)) (zip u t).
Proof.
  intros Hlen. unfold broadcastable_to.
  rewrite pad_left_full by lia. by rewrite bool_decide_eq_true_2 by lia.
Qed.

Lemma broadcastable_unit_axes pos axes (s : list nat) :
  broadcastable_to (unit_axes 1 pos axes s) s = true.
Proof.
  rewrite broadcastable_to_same_rank by apply length_unit_axes.
  revert pos. induction s as [|d s IH]; intros pos; simpl; [done|].
  rewrite IH, andb_true_r. case_decide.
  - by rewrite (bool_decide_eq_true_2 (1 = 1)), orb_true_r.
  - by rewrite bool_decide_eq_true_2.
Qed.

Lemma broadcastable_ones (s : list nat) :
  broadcastable_to (replicate (length s) 1) s = true.
Proof.
  rewrite broadcastable_to_same_rank by apply length_replicate.
  induction s as [|d s IH]; simpl; [done|].
  by rewrite IH, orb_true_r.
Qed.

(** With every axis reduced nothing is kept. *)
Lemma kept_axes_all {A} (s : list A) : kept_axes 0 (seq 0 (length s)) s = [].
Proof. rewrite kept_axes_prefix, Nat.sub_0_r. apply drop_all. Qed.

End backend_reductions.

Section gradient_helpers.
Import array_api ops.

Lemma restored_shape_loop axes (s post pre acc : list Z) :
  s = pre ++ post -> length acc = length pre ->
  foldl (fun acc i =>
           out_shape ← acc;
           if decide (Z.of_nat i ∈ axes) then Some out_shape
           else d ← s !! i; Some (<[i := d]> out_shape))
        (Some (acc ++ replicate (length post) 1%Z))
        (seq (length pre) (length post)) =
  Some (acc ++ unit_axes 1%Z (length pre) axes post).
Proof.
  revert pre acc. induction post as [|d post IH]; intros pre acc Hs Hlen; [done|].
  simpl seq. simpl foldl. simpl unit_axes.
  assert (s = (pre ++ [d]) ++ post) as Hs' by (by rewrite <- app_assoc).
  specialize (IH (pre ++ [d])). rewrite length_app in IH. simpl in IH.
  rewrite Nat.add_1_r in IH.
  case_decide as Hin.
  - specialize (IH (acc ++ [1%Z]) Hs'). rewrite <- !app_assoc in IH. simpl in IH.
    apply IH. rewrite length_app. simpl. lia.
  - assert (s !! length pre = Some d) as ->.
    { rewrite Hs, lookup_app_r by lia. by rewrite Nat.sub_diag. }
    simpl. rewrite <- Hlen at 1. rewrite <- (Nat.add_0_r (length acc)) at 1.
    rewrite insert_app_r. simpl.
    specialize (IH (acc ++ [d]) Hs'). rewrite <- !app_assoc in IH. simpl in IH.
    apply IH. rewrite length_app. simpl. lia.
Qed.

(** The loop of [Summation.gradient] sets size 1 exactly at the
    positions that occur literally in [self.axes]. *)
Lemma restored_shape_Some axes (s : list Z) :
  restored_shape (Some axes) s = Some (unit_axes 1%Z 0 axes s).
Proof.
  unfold restored_shape. rewrite length_replicate.
  by apply (restored_shape_loop axes s s [] []).
Qed.

Lemma differing_axes_filter (target unsqueezed : list Z) (l : list nat) :
  length target ≤ length unsqueezed ->
  Forall (fun i => i < length target) l ->
  foldr (fun i rest =>
           a ← target !! i;
           b ← unsqueezed !! i;
           axes ← rest;
           Some (if decide (a ≠ b) then Z.of_nat i :: axes else axes))
        (Some []) l =
  Some (Z.of_nat <$> filter (fun i => target !! i ≠ unsqueezed !! i) l).
Proof.
  intros Hlen. induction 1 as [|i l Hi Hl IH]; [done|].
  simpl foldr. rewrite IH.
  destruct (lookup_lt_is_Some_2 target i Hi) as [a Ha].
  destruct (lookup_lt_is_Some_2 unsqueezed i ltac:(lia)) as [b Hb].
  rewrite Ha, Hb. simpl.
  case_decide as Hab.
  - rewrite filter_cons_True; [done|]. rewrite Ha, Hb. congruence.
  - rewrite filter_cons_False; [done|]. rewrite Ha, Hb. intros Hne. apply Hne. congruence.
Qed.

(** The comprehension of [BroadcastTo.gradient] never reads out of
    range and yields the axes at which target and padded input differ. *)
Lemma differing_axes_spec (target in_shape : list Z) :
  differing_axes target (replicate (length target - length in_shape) 1%Z ++ in_shape)
  = Some (Z.of_nat <$> reduction_axes target in_shape).
Proof.
  unfold differing_axes, reduction_axes, left_pad_ones.
  apply differing_axes_filter.
  - rewrite length_app, length_replicate. lia.
  - apply Forall_forall. intros i Hi. apply elem_of_seq in Hi. lia.
Qed.

Lemma reduction_axes_lt target in_shape :
  Forall (fun i => i < length target) (reduction_axes target in_shape).
Proof.
  apply Forall_forall. intros i Hi. unfold reduction_axes in Hi.
  apply list_elem_of_filter in Hi as [_ Hi]. apply elem_of_seq in Hi. lia.
Qed.

Lemma reduction_axes_NoDup target in_shape : NoDup (reduction_axes target in_shape).
Proof. apply NoDup_filter, NoDup_seq. Qed.

Lemma left_pad_ones_of_nat n (s : list nat) :
  left_pad_ones n (Z.of_nat <$> s) = Z.of_nat <$> pad_left n s.
Proof.
  unfold left_pad_ones, pad_left.
  by rewrite fmap_app, fmap_replicate, length_fmap.
Qed.

Lemma size_of_kept_differing pos reduced (t u : list nat) :
  length u = length t ->
  forallb (fun p => bool_decide (p.1 = p.2) || bool_decide (p.1 = 1)) (zip u t) = true ->
  (forall i, i < length t -> (pos + i ∈ reduced <-> t !! i ≠ u !! i)) ->
  size_of (kept_axes pos reduced t) = size_of u.
Proof.
  revert pos u. induction t as [|d t IH]; intros pos [|e u] Hlen Hok Hmem;
    simplify_eq/=; [done|].
  apply andb_true_iff in Hok as [Hd Hok].
  assert (forall i, i < length t -> S pos + i ∈ reduced <-> t !! i ≠ u !! i) as Hmem'.
  { intros i Hi. rewrite <- (Hmem (S i)) by lia. by rewrite Nat.add_succ_r. }
  pose proof (Hmem 0 ltac:(lia)) as H0. rewrite Nat.add_0_r in H0. simpl in H0.
  destruct (decide (pos ∈ reduced)) as [Hin|Hin];
    [rewrite bool_decide_eq_true_2 by done|rewrite bool_decide_eq_false_2 by done].
  - apply H0 in Hin. apply orb_true_iff in Hd as [Hd|Hd]; apply bool_decide_eq_true in Hd.
    + congruence.
    + subst e. rewrite (IH (S pos) u) by done. lia.
  - assert (d = e) as ->.
    { destruct (decide (d = e)); [done|]. exfalso. apply Hin, H0. congruence. }
    simpl. by rewrite (IH (S pos) u).
Qed.

(** Summing a broadcast array over the axes that were stretched or
    added leaves as many entries as the input has. *)
Lemma size_of_kept_reduction_axes (s t : list nat) :
  broadcastable_to s t = true ->
  size_of (kept_axes 0 (reduction_axes (Z.of_nat <$> t) (Z.of_nat <$> s)) t) = size_of s.
Proof.
  unfold broadcastable_to. intros Hb. apply andb_true_iff in Hb as [Hlen Hok].
  apply bool_decide_eq_true in Hlen.
  rewrite <- (size_of_pad_left (length t) s).
  apply size_of_kept_differing; [by apply length_pad_left|done|].
  intros i Hi. simpl. unfold reduction_axes.
  rewrite list_elem_of_filter, elem_of_seq, length_fmap, left_pad_ones_of_nat.
  rewrite !list_lookup_fmap.
  split.
  - intros [Hne _] Heq. apply Hne. by rewrite Heq.
  - intros Hne. split; [|lia]. intros Heq. apply Hne.
    destruct (t !! i), (pad_left (length t) s !! i); simplify_eq/=; done.
Qed.

End gradient_helpers.

(** ** Shapes of graph nodes *)

Section node_shapes.
Import array_api ops.

Lemma shape_ewise f a b :
  shape <$> ewise f a b = broadcast_shapes (shape a) (shape b).
Proof. unfold ewise. by destruct (broadcast_shapes (shape a) (shape b)). Qed.

Lemma shape_matmul a b :
  shape <$> array_api.matmul a b = matmul_shape (shape a) (shape b).
Proof.
  unfold array_api.matmul, matmul_shape, ndim.
  destruct (shape a) as [|da sa]; [done|].
  destruct (shape b) as [|db sb]; [done|].
  repeat (case_match; try done);
    by destruct (broadcast_shapes _ _).
Qed.

(** The shape of a computed array depends only on the operator and on
    the shapes of its arguments. *)
Lemma shape_compute self args :
  shape <$> compute self args = compute_shape self (shape <$> args).
Proof.
  destruct self; destruct args as [|a [|b [|c args]]]; try done; simpl.
  - apply shape_ewise.
  - apply shape_ewise.
  - apply shape_ewise.
  - destruct axes as [[axis1 axis2]|]; unfold swapaxes, ndim;
      repeat (destruct (normalize_axis _ _); simpl; try done).
  - unfold array_api.reshape. by destruct (reshape_target _ _).
  - unfold array_api.broadcast_to. destruct (to_nat_shape _); [|done]. simpl.
    by case_match.
  - unfold array_api.sum, ndim. destruct axes as [axes|]; simpl.
    + destruct (mapM _ axes); [|done]. simpl. by case_decide.
    + by case_decide.
  - apply shape_matmul.
  - apply shape_ewise.
Qed.

Lemma realize_MakeOp op inputs :
  realize_cached_data (MakeOp op inputs) =
  mapM realize_cached_data inputs ≫= compute op.
Proof.
  simpl. f_equal.
Qed.

Lemma shape_of_MakeOp op inputs :
  shape_of (MakeOp op inputs) = mapM shape_of inputs ≫= compute_shape op.
Proof.
  unfold shape_of at 1. rewrite realize_MakeOp.
  assert (mapM shape_of inputs = fmap shape <$> mapM realize_cached_data inputs) as ->.
  { induction inputs as [|t ts IH]; [done|]. simpl. rewrite IH. unfold shape_of.
    destruct (realize_cached_data t); [|done]. simpl.
    by destruct (mapM realize_cached_data ts). }
  destruct (mapM realize_cached_data inputs) as [args|]; [|done]. simpl.
  apply shape_compute.
Qed.

Lemma shape_of_unary op a :
  shape_of (MakeOp op [a]) = sa ← shape_of a; compute_shape op [sa].
Proof. rewrite shape_of_MakeOp. simpl. by destruct (shape_of a). Qed.

Lemma shape_of_binary op a b :
  shape_of (MakeOp op [a; b]) =
  sa ← shape_of a; sb ← shape_of b; compute_shape op [sa; sb].
Proof.
  rewrite shape_of_MakeOp. simpl.
  destruct (shape_of a); [|done]. simpl. by destruct (shape_of b).
Qed.

Lemma shape_of_Const d : shape_of (Const d) = Some (shape d).
Proof. done. Qed.

Lemma compute_shape_arity self in_shapes s :
  compute_shape self in_shapes = Some s -> length in_shapes = arity self.
Proof. destruct self; destruct in_shapes as [|sa [|sb [|sc l]]]; done. Qed.

(** A node whose value can be computed has as many operands as its
    operator takes, and each of them can be computed. *)
Lemma shape_of_MakeOp_inv op inputs s :
  shape_of (MakeOp op inputs) = Some s ->
  exists in_shapes, mapM shape_of inputs = Some in_shapes /\
                    compute_shape op in_shapes = Some s /\
                    length inputs = arity op.
Proof.
  rewrite shape_of_MakeOp. intros H.
  destruct (mapM shape_of inputs) as [in_shapes|] eqn:Hin; [|done].
  exists in_shapes. split; [done|]. split; [done|].
  apply length_mapM in Hin. rewrite Hin. by eapply compute_shape_arity.
Qed.

End node_shapes.

Section matmul_shapes.
Import array_api ops.

Lemma split_last_two (s : list nat) :
  2 ≤ length s -> exists m k, s = batch_axes s ++ [m; k].
Proof.
  intros Hlen. unfold batch_axes.
  assert (length (drop (length s - 2) s) = 2) as Hd by (rewrite length_drop; lia).
  destruct (drop (length s - 2) s) as [|m [|k [|? ?]]] eqn:Hdrop; simplify_eq/=.
  exists m, k. by rewrite <- Hdrop, take_drop.
Qed.

Lemma batch_axes_app b m k : batch_axes (b ++ [m; k]) = b.
Proof.
  unfold batch_axes. rewrite length_app. simpl.
  apply take_app_length'. lia.
Qed.

(** The product of two matrices or batches of matrices. *)
Lemma matmul_shape_matrices ba bb m k k' n :
  matmul_shape (ba ++ [m; k]) (bb ++ [k'; n]) =
  if decide (k = k') then o ← broadcast_shapes ba bb; Some (o ++ [m; n]) else None.
Proof.
  unfold matmul_shape.
  remember (ba ++ [m; k]) as sa eqn:Hsa. remember (bb ++ [k'; n]) as sb eqn:Hsb.
  destruct sa as [|da sa]; [by destruct ba|].
  destruct sb as [|db sb]; [by destruct bb|].
  rewrite Hsa, Hsb.
  rewrite !bool_decide_eq_false_2 by (rewrite length_app; simpl; lia).
  rewrite !drop_app_length' by (rewrite length_app; simpl; lia).
  rewrite !take_app_length' by (rewrite length_app; simpl; lia).
  case_decide; [|done]. by destruct (broadcast_shapes ba bb).
Qed.

(** The default transpose of a matrix or a batch of matrices. *)
Lemma transpose_shape_matrices b m k :
  compute_shape (Transpose None) [b ++ [m; k]] = Some (b ++ [k; m]).
Proof.
  simpl. unfold normalize_axis. rewrite length_app. simpl.
  rewrite !decide_True by lia. simpl.
  replace (Z.to_nat (-2 + Z.of_nat (length b + 2))) with (length b) by lia.
  replace (Z.to_nat (-1 + Z.of_nat (length b + 2))) with (S (length b)) by lia.
  by rewrite swap_list_last_two.
Qed.

Lemma zip_broadcast_pad k (b : list nat) :
  zip_broadcast (replicate (length k) 1 ++ b) (k ++ b) = Some (k ++ b).
Proof.
  induction k as [|d k IH]; simpl; [apply zip_broadcast_same|].
  by rewrite zip_broadcast_cons, broadcast_dim_one_l, IH.
Qed.

(** Batch axes that are the trailing batch axes of the other operand's
    broadcast to them without any axis being stretched. *)
Lemma broadcast_shapes_suffix_l b o : b `suffix_of` o -> broadcast_shapes b o = Some o.
Proof.
  intros [k ->]. rewrite broadcast_shapes_zip, length_app.
  replace (length b `max` (length k + length b)) with (length k + length b) by lia.
  rewrite (pad_left_full _ (k ++ b)) by (rewrite length_app; lia).
  unfold pad_left. replace (length k + length b - length b) with (length k) by lia.
  apply zip_broadcast_pad.
Qed.

Lemma zip_broadcast_pad_r k (b : list nat) :
  zip_broadcast (k ++ b) (replicate (length k) 1 ++ b) = Some (k ++ b).
Proof.
  induction k as [|d k IH]; simpl; [apply zip_broadcast_same|].
  by rewrite zip_broadcast_cons, broadcast_dim_one_r, IH.
Qed.

Lemma broadcast_shapes_suffix_r b o : b `suffix_of` o -> broadcast_shapes o b = Some o.
Proof.
  intros [k ->]. rewrite broadcast_shapes_zip, length_app.
  replace ((length k + length b) `max` length b) with (length k + length b) by lia.
  rewrite (pad_left_full _ (k ++ b)) by (rewrite length_app; lia).
  unfold pad_left. replace (length k + length b - length b) with (length k) by lia.
  apply zip_broadcast_pad_r.
Qed.

Lemma shape_of_summation a axes :
  shape_of (summation a (AxesTuple axes)) = sa ← shape_of a; compute_shape (Summation (Some axes)) [sa].
Proof. apply shape_of_unary. Qed.

(** [MatMul.gradient] removes the leading axes by which the raw
    gradient's rank exceeds the operand's. *)
Lemma restore_leading_axes grad (k b : list nat) :
  shape_of grad = Some (k ++ b) ->
  let batch := (Z.of_nat (length (k ++ b)) - Z.of_nat (length b))%Z in
  shape_of (if decide (batch > 0)%Z
            then summation grad (AxesTuple (seqZ 0 batch)) else grad) = Some b.
Proof.
  intros Hgrad batch.
  assert (batch = Z.of_nat (length k)) as Hbatch.
  { unfold batch. rewrite length_app. lia. }
  case_decide as Hpos.
  - rewrite shape_of_summation, Hgrad. simpl.
    rewrite normalize_axes_seqZ by (rewrite length_app; lia). simpl.
    rewrite decide_True by apply NoDup_seq.
    rewrite kept_axes_prefix, Nat.sub_0_r, Hbatch, Nat2Z.id.
    by rewrite drop_app_length.
  - destruct k; [done|]. simpl in Hbatch. lia.
Qed.

End matmul_shapes.

(** ** The model on small inputs *)

Section examples.
Import array_api ops.

Example broadcast_shapes_trailing : broadcast_shapes [2; 3] [3] = Some [2; 3].
Proof. reflexivity. Qed.

Example broadcast_shapes_stretch : broadcast_shapes [2; 1] [3] = Some [2; 3].
Proof. reflexivity. Qed.

Example broadcast_shapes_mismatch : broadcast_shapes [2; 3] [4] = None.
Proof. reflexivity. Qed.

Example relu_of_scalar_shape : shape <$> compute ReLU [full [] 3] = Some [1].
Proof. reflexivity. Qed.

Example reshape_inferred : shape <$> array_api.reshape (iota [3; 4]) [2; -1]%Z = Some [2; 6].
Proof. reflexivity. Qed.

Example reshape_wrong_size : array_api.reshape (iota [3; 4]) [5; -1]%Z = None.
Proof. reflexivity. Qed.

Example reshape_entry :
  (fun a => item a [2; 1]) <$> array_api.reshape (iota [2; 3]) [3; 2]%Z = Some 5%R.
Proof. simpl. f_equal. lra. Qed.

Example swapaxes_entry :
  (fun a => item a [3; 1; 1]) <$> swapaxes (iota [2; 3; 4]) 0 2 = Some 19%R.
Proof. simpl. f_equal. lra. Qed.

Example swapaxes_out_of_range : swapaxes (iota [3]) (-2) (-1) = None.
Proof. reflexivity. Qed.

Example sum_axis_entry :
  (fun a => item a [1]) <$> array_api.sum (iota [2; 3]) (Some [1%Z]) = Some 12%R.
Proof. simpl. f_equal. unfold sum_list. simpl. lra. Qed.

Example sum_two_axes_entry :
  (fun a => item a [1]) <$> array_api.sum (iota [2; 3; 2]) (Some [0; -1]%Z) = Some 22%R.
Proof. simpl. f_equal. unfold sum_list. simpl. lra. Qed.

Example sum_duplicate_axis : array_api.sum (iota [2; 3]) (Some [1; -1]%Z) = None.
Proof. reflexivity. Qed.

Example matmul_entry :
  (fun a => item a [1; 1]) <$> array_api.matmul (iota [2; 3]) (iota [3; 2]) = Some 40%R.
Proof. simpl. f_equal. unfold sum_list. simpl. lra. Qed.

Example matmul_batched_entry :
  (fun a => item a [1; 0; 1]) <$> array_api.matmul (iota [2; 2; 3]) (iota [3; 2]) = Some 67%R.
Proof. simpl. f_equal. unfold sum_list. simpl. lra. Qed.

Example matmul_vector_shape :
  shape <$> array_api.matmul (iota [3]) (iota [2; 3; 4]) = Some [2; 4].
Proof. reflexivity. Qed.

Example matmul_batch_shape :
  shape <$> array_api.matmul (iota [3; 4]) (iota [2; 3; 4; 5]) = Some [2; 3; 3; 5].
Proof. reflexivity. Qed.

(** The forward pass of the scenario of section 8: the shapes along
    [summation(broadcast_to(reshape(x, (2, 3, 1)), (2, 3, 4)), (2,))]. *)
Example scenario_forward_shapes :
  let x := Const (iota [2; 3]) in
  shape_of (reshape x [2; 3; 1]%Z) = Some [2; 3; 1] /\
  shape_of (broadcast_to (reshape x [2; 3; 1]%Z) [2; 3; 4]%Z) = Some [2; 3; 4] /\
  shape_of (summation (broadcast_to (reshape x [2; 3; 1]%Z) [2; 3; 4]%Z) (AxesTuple [2%Z]))
    = Some [2; 3].
Proof. repeat split; reflexivity. Qed.

(** The gradient rules on the applications the claims single out. *)
Example gradient_Summation_axis_1 :
  gradient (Summation_init (AxesInt 1)) (Const (full [2] 1))
           (summation (Const (full [2; 3] 1)) (AxesInt 1)) =
  Some (Single (broadcast_to (reshape (Const (full [2] 1)) [2; 1]%Z) [2; 3]%Z)).
Proof. reflexivity. Qed.

Example gradient_BroadcastTo_axes :
  differing_axes [2; 3; 4]%Z [1; 3; 1]%Z = Some [0; 2]%Z.
Proof. reflexivity. Qed.

Example gradient_MatMul_batch :
  let a := Const (full [3; 4] 1) in
  let b := Const (full [2; 3; 4; 5] 1) in
  let g := Const (full [2; 3; 3; 5] 1) in
  gradient MatMul g (matmul a b) =
  Some (Tuple [summation (matmul g (transpose b None)) (AxesTuple [0; 1]%Z);
               matmul (transpose a None) g]).
Proof. reflexivity. Qed.

End examples.

(** ** The shape of each gradient rule's result *)

Section gradient_shapes.
Import array_api ops.

Lemma same_shape_intro g x s :
  shape_of g = Some s -> shape_of x = Some s -> same_shape g x.
Proof. intros. by exists s. Qed.

Lemma shape_of_realize x s :
  shape_of x = Some s -> exists v, realize_cached_data x = Some v /\ shape v = s.
Proof.
  unfold shape_of. destruct (realize_cached_data x) as [v|]; [|done].
  intros; simplify_eq/=. by exists v.
Qed.

(** Two operands of one shape, or a gradient of the operand's shape
    against the operand: the elementwise result has that shape. *)
Lemma shape_of_ewise_same op a b s :
  op = EWiseAdd \/ op = EWiseMul \/ op = EWiseDiv ->
  shape_of a = Some s -> shape_of b = Some s ->
  shape_of (MakeOp op [a; b]) = Some s.
Proof.
  intros Hop Ha Hb. rewrite shape_of_binary, Ha, Hb. simpl.
  destruct Hop as [-> | [-> | ->]]; apply broadcast_shapes_same.
Qed.

Lemma shape_of_map op a s :
  compute_shape op [s] = Some s ->
  shape_of a = Some s -> shape_of (MakeOp op [a]) = Some s.
Proof. intros Hop Ha. by rewrite shape_of_unary, Ha. Qed.

Lemma grad_shape_Transpose axes x g sx s :
  shape_of x = Some sx -> compute_shape (Transpose axes) [sx] = Some s ->
  shape_of g = Some s ->
  shape_of (transpose g axes) = Some sx.
Proof.
  intros Hx Hs Hg. unfold transpose. rewrite shape_of_unary, Hg. simpl in *.
  destruct (match axes with Some p => p | None => _ end) as [axis1 axis2].
  destruct (normalize_axis axis1 (length sx)) as [i|] eqn:Hi; [|done].
  destruct (normalize_axis axis2 (length sx)) as [j|] eqn:Hj; [|done].
  simplify_eq/=. rewrite length_swap_list, Hi, Hj. simpl.
  by rewrite swap_list_involutive.
Qed.

Lemma grad_shape_Reshape shape' x g sx s :
  shape_of x = Some sx -> compute_shape (Reshape shape') [sx] = Some s ->
  shape_of g = Some s ->
  shape_of (reshape g (as_tuple sx)) = Some sx.
Proof.
  intros Hx Hs Hg. unfold reshape. rewrite shape_of_unary, Hg. simpl in *.
  apply reshape_target_size in Hs. rewrite Hs. apply reshape_target_as_tuple.
Qed.

Lemma differing_axes_gradient (shape' : list Z) (sx : list nat) :
  differing_axes shape' (replicate (length shape' - length sx) 1%Z ++ as_tuple sx)
  = Some (Z.of_nat <$> reduction_axes shape' (as_tuple sx)).
Proof.
  rewrite <- (length_fmap Z.of_nat sx). apply differing_axes_spec.
Qed.

Lemma grad_shape_BroadcastTo shape' x g sx s :
  shape_of x = Some sx -> compute_shape (BroadcastTo shape') [sx] = Some s ->
  shape_of g = Some s ->
  shape_of (reshape (summation g (AxesTuple (Z.of_nat <$> reduction_axes shape' (as_tuple sx))))
                    (as_tuple sx)) = Some sx.
Proof.
  intros Hx Hs Hg. simpl in Hs.
  destruct (to_nat_shape shape') as [t|] eqn:Ht; [|done]. simpl in Hs.
  destruct (broadcastable_to sx t) eqn:Hb; [|done]. simplify_eq.
  apply to_nat_shape_inv in Ht. subst shape'.
  unfold reshape. rewrite shape_of_unary, shape_of_summation, Hg. simpl.
  rewrite normalize_axes_of_nat.
  2:{ pose proof (reduction_axes_lt (Z.of_nat <$> s) (as_tuple sx)) as Hlt.
      by rewrite length_fmap in Hlt. }
  simpl. rewrite decide_True by apply reduction_axes_NoDup. simpl.
  unfold as_tuple. rewrite size_of_kept_reduction_axes by done.
  apply reshape_target_as_tuple.
Qed.

Lemma grad_shape_Summation_None x g sx s :
  shape_of x = Some sx -> compute_shape (Summation None) [sx] = Some s ->
  shape_of g = Some s ->
  shape_of (broadcast_to (reshape g (replicate (length (as_tuple sx)) 1%Z)) (as_tuple sx))
  = Some sx.
Proof.
  intros Hx Hs Hg. simpl in Hs. rewrite decide_True in Hs by apply NoDup_seq.
  rewrite kept_axes_all in Hs. simplify_eq.
  unfold broadcast_to, reshape, as_tuple. rewrite !shape_of_unary, Hg. simpl.
  rewrite length_fmap, reshape_target_nonneg.
  - simpl. rewrite to_nat_shape_as_tuple. simpl.
    by rewrite fmap_replicate, broadcastable_ones.
  - apply Forall_replicate. lia.
  - by rewrite fmap_replicate, size_of_ones.
Qed.

Lemma grad_shape_Summation_Some axes x g sx s :
  Forall (fun ax => 0 ≤ ax)%Z axes ->
  shape_of x = Some sx -> compute_shape (Summation (Some axes)) [sx] = Some s ->
  shape_of g = Some s ->
  shape_of (broadcast_to (reshape g (unit_axes 1%Z 0 axes (as_tuple sx))) (as_tuple sx))
  = Some sx.
Proof.
  intros Hpos Hx Hs Hg. simpl in Hs.
  destruct (mapM _ axes) as [reduced|] eqn:Hred; [|done]. simpl in Hs.
  case_decide; [|done]. simplify_eq.
  apply normalize_axes_nonneg in Hred; [|done].
  unfold broadcast_to, reshape, as_tuple. rewrite !shape_of_unary, Hg. simpl.
  rewrite reshape_target_nonneg.
  - simpl. rewrite to_nat_shape_as_tuple. simpl.
    by rewrite unit_axes_to_nat, broadcastable_unit_axes.
  - apply unit_axes_nonneg.
  - rewrite unit_axes_to_nat. symmetry. apply size_of_kept_unit.
    intros i. subst axes. apply (list_elem_of_fmap_inj Z.of_nat).
Qed.

Lemma grad_shape_ReLU x g sx s :
  sx ≠ [] ->
  shape_of x = Some sx -> compute_shape ReLU [sx] = Some s ->
  shape_of g = Some s ->
  exists input, realize_cached_data x = Some input /\
    shape_of (Tensor_mul g (Const (greater_scalar input 0%R))) = Some sx.
Proof.
  intros Hne Hx Hs Hg. simpl in Hs. rewrite broadcast_shapes_one in Hs by done.
  simplify_eq. destruct (shape_of_realize _ _ Hx) as (input & Hin & Hshape).
  exists input. split; [done|].
  apply shape_of_ewise_same; [by auto|done|].
  rewrite shape_of_Const. simpl. by f_equal.
Qed.

Lemma shape_of_transpose_None x b m k :
  shape_of x = Some (b ++ [m; k]) -> shape_of (transpose x None) = Some (b ++ [k; m]).
Proof.
  intros Hx. unfold transpose. rewrite shape_of_unary, Hx.
  apply transpose_shape_matrices.
Qed.

Lemma shape_of_matmul a b ba bb m k n o :
  shape_of a = Some (ba ++ [m; k]) -> shape_of b = Some (bb ++ [k; n]) ->
  broadcast_shapes ba bb = Some o ->
  shape_of (matmul a b) = Some (o ++ [m; n]).
Proof.
  intros Ha Hb Ho. unfold matmul. rewrite shape_of_binary, Ha, Hb.
  change (matmul_shape (ba ++ [m; k]) (bb ++ [k; n]) = Some (o ++ [m; n])).
  by rewrite matmul_shape_matrices, decide_True, Ho by done.
Qed.

(** [MatMul.gradient] on matrices or batches of matrices whose batch
    axes are trailing axes of the result's batch axes. *)
Lemma grad_shape_MatMul lhs rhs g ba bb m k n o :
  shape_of lhs = Some (ba ++ [m; k]) -> shape_of rhs = Some (bb ++ [k; n]) ->
  shape_of g = Some (o ++ [m; n]) ->
  broadcast_shapes ba bb = Some o ->
  ba `suffix_of` o -> bb `suffix_of` o ->
  exists r, gradient MatMul g (MakeOp MatMul [lhs; rhs]) = Some r /\
            Forall2 same_shape (grads_of r) [lhs; rhs].
Proof.
  intros Hl Hr Hg Ho [ka Hka] [kb Hkb]. simpl.
  pose proof (shape_of_transpose_None _ _ _ _ Hl) as Hlt.
  pose proof (shape_of_transpose_None _ _ _ _ Hr) as Hrt.
  assert (shape_of (matmul g (transpose rhs None)) = Some (ka ++ ba ++ [m; k])) as H1.
  { rewrite (shape_of_matmul _ _ _ _ _ _ _ o Hg Hrt) by by eapply broadcast_shapes_absorb_r.
    by rewrite Hka, <- app_assoc. }
  assert (shape_of (matmul (transpose lhs None) g) = Some (kb ++ bb ++ [k; n])) as H2.
  { rewrite (shape_of_matmul _ _ _ _ _ _ _ o Hlt Hg) by by eapply broadcast_shapes_absorb_l.
    by rewrite Hkb, <- app_assoc. }
  rewrite H1, Hl, H2, Hr. simpl.
  eexists. split; [done|]. simpl.
  constructor; [|constructor; [|constructor]].
  - eapply same_shape_intro; [|exact Hl]. by apply restore_leading_axes.
  - eapply same_shape_intro; [|exact Hr]. by apply restore_leading_axes.
Qed.

Lemma grad_shape_MatMul_explicit lhs rhs g sa sb s :
  shape_of lhs = Some sa -> shape_of rhs = Some sb ->
  matmul_shape sa sb = Some s -> shape_of g = Some s ->
  2 ≤ length sa -> 2 ≤ length sb ->
  batch_axes sa `suffix_of` batch_axes sb \/ batch_axes sb `suffix_of` batch_axes sa ->
  exists r, gradient MatMul g (MakeOp MatMul [lhs; rhs]) = Some r /\
            Forall2 same_shape (grads_of r) [lhs; rhs].
Proof.
  intros Hl Hr Hs Hg Hla Hlb Hsuffix.
  destruct (split_last_two _ Hla) as (m & k & Hsa).
  destruct (split_last_two _ Hlb) as (k' & n & Hsb).
  revert Hsuffix Hsa Hsb. generalize (batch_axes sa) (batch_axes sb).
  intros ba bb Hsuffix -> ->.
  rewrite matmul_shape_matrices in Hs. case_decide as Hk; [|done]. subst k'.
  destruct (broadcast_shapes ba bb) as [o|] eqn:Ho; [|done]. simplify_eq/=.
  assert (ba `suffix_of` o /\ bb `suffix_of` o) as [Ha Hb].
  { destruct Hsuffix as [Hsuf|Hsuf].
    - rewrite (broadcast_shapes_suffix_l _ _ Hsuf) in Ho. by simplify_eq.
    - rewrite (broadcast_shapes_suffix_r _ _ Hsuf) in Ho. by simplify_eq. }
  by eapply grad_shape_MatMul.
Qed.

End gradient_shapes.

(** ** The claims *)

Section claims.
Import array_api ops.

Local Ltac operand_shapes Hin :=
  simpl in Hin;
  repeat match type of Hin with
         | context [shape_of ?t] =>
             let Ht := fresh "Hshape" in
             destruct (shape_of t) eqn:Ht; simpl in Hin
         end;
  unfold mret, option_ret in Hin; simplify_eq/=.

Local Ltac one_gradient :=
  constructor; [eapply same_shape_intro; [|eassumption]|constructor].

(** C1 (amended): for every operator of the catalogue and every valid
    application in which no operand is implicitly stretched (elementwise
    operands of one shape, [MatMul] on matrices or batches of matrices
    with the batch axes of one operand the trailing batch axes of the
    other, [Summation] axes counted from the front, [ReLU] on an operand
    with at least one axis), [gradient] returns and each node it returns
    has the shape of the corresponding operand. *)
Theorem gradient_shapes_of_explicit_applications self inputs out_grad in_shapes :
  valid_application self inputs out_grad ->
  mapM shape_of inputs = Some in_shapes ->
  explicit_shapes self in_shapes ->
  gradient_shapes_agree self inputs out_grad.
Proof.
  intros (s & Hnode & Hg) Hin Hexp.
  apply shape_of_MakeOp_inv in Hnode as (in_shapes' & Hin' & Hcomp & Hlen).
  rewrite Hin in Hin'. injection Hin' as <-.
  unfold gradient_shapes_agree.
  destruct self; destruct inputs as [|a [|b [|c inputs]]]; try done;
    clear Hlen; operand_shapes Hin; try done.
  - (* EWiseAdd *)
    rewrite broadcast_shapes_same in Hcomp. simplify_eq.
    eexists. split; [done|]. simpl. repeat (constructor; [by eapply same_shape_intro|]).
    constructor.
  - (* AddScalar *)
    eexists. split; [done|]. simpl. one_gradient. done.
  - (* EWiseMul *)
    rewrite broadcast_shapes_same in Hcomp. simplify_eq.
    eexists. split; [done|]. simpl.
    repeat (constructor; [eapply same_shape_intro; [|eassumption];
                          apply shape_of_ewise_same; by auto|]).
    constructor.
  - (* MulScalar *)
    eexists. split; [done|]. simpl. one_gradient. by apply shape_of_map.
  - (* PowerScalar *)
    eexists. split; [done|]. simpl. one_gradient.
    apply shape_of_ewise_same; [by auto| |]; by apply shape_of_map.
  - (* EWiseDiv *)
    rewrite broadcast_shapes_same in Hcomp. simplify_eq.
    eexists. split; [done|]. simpl.
    constructor; [|constructor; [|constructor]].
    + eapply same_shape_intro; [|eassumption]. apply shape_of_ewise_same; by auto.
    + eapply same_shape_intro; [|eassumption].
      apply shape_of_ewise_same; [by auto| |by apply shape_of_map].
      apply shape_of_ewise_same; [by auto| |done]. by apply shape_of_map.
  - (* DivScalar *)
    eexists. split; [done|]. simpl. one_gradient. by apply shape_of_map.
  - (* Transpose *)
    eexists. split; [done|]. simpl. one_gradient. by eapply grad_shape_Transpose.
  - (* Reshape *)
    rewrite Hshape. simpl.
    eexists. split; [done|]. simpl. one_gradient. by eapply grad_shape_Reshape.
  - (* BroadcastTo *)
    rewrite Hshape. simpl. rewrite differing_axes_gradient. simpl.
    eexists. split; [done|]. simpl. one_gradient. by eapply grad_shape_BroadcastTo.
  - (* Summation *)
    rewrite Hshape. simpl. destruct axes as [axes|].
    + rewrite restored_shape_Some. simpl.
      eexists. split; [done|]. simpl. one_gradient.
      by eapply grad_shape_Summation_Some.
    + eexists. split; [done|]. simpl. one_gradient.
      by eapply grad_shape_Summation_None.
  - (* MatMul *)
    destruct Hexp as (Hla & Hlb & Hsuffix). by eapply grad_shape_MatMul_explicit.
  - (* Negate *)
    eexists. split; [done|]. simpl. one_gradient. by apply shape_of_map.
  - (* Log *)
    eexists. split; [done|]. simpl. one_gradient. apply shape_of_ewise_same; by auto.
  - (* Exp *)
    eexists. split; [done|]. simpl. one_gradient.
    apply shape_of_ewise_same; [by auto|done|]. by apply shape_of_map.
  - (* ReLU *)
    destruct (grad_shape_ReLU _ _ _ _ Hexp Hshape Hcomp Hg) as (input & Hinput & Hmask).
    rewrite Hinput. simpl.
    eexists. split; [done|]. simpl. by one_gradient.
Qed.

(** C1, counterexample: [EWiseAdd] applied to an operand of shape (2, 3)
    and a scalar operand of shape () is a valid application, and the
    gradient returned for the scalar operand has shape (2, 3). *)
Lemma gradient_shape_invariant_fails : ~ gradient_shape_invariant.
Proof.
  intros Hinv.
  destruct (Hinv EWiseAdd [Const (full [2; 3] 1); Const (full [] 1)]
                 (Const (full [2; 3] 1))) as (r & Hr & Hshapes).
  { exists [2; 3]. split; reflexivity. }
  simpl in Hr. injection Hr as <-. simpl in Hshapes.
  apply Forall2_cons_1 in Hshapes as [_ Hshapes].
  apply Forall2_cons_1 in Hshapes as [(s & Hg & Hx) _].
  rewrite shape_of_Const in Hg, Hx. simpl in Hg, Hx. congruence.
Qed.

(** The statement of C1 (amended) at the application of section 8:
    [a] of shape (3, 4) times [b] of shape (2, 3, 4, 5). *)
Lemma gradient_shapes_of_explicit_applications_witness :
  let inputs := [Const (full [3; 4] 1); Const (full [2; 3; 4; 5] 1)] in
  let out_grad := Const (full [2; 3; 3; 5] 1) in
  valid_application MatMul inputs out_grad /\
  explicit_shapes MatMul [[3; 4]; [2; 3; 4; 5]] /\
  gradient_shapes_agree MatMul inputs out_grad.
Proof.
  intros inputs out_grad.
  assert (valid_application MatMul inputs out_grad) as Hvalid.
  { exists [2; 3; 3; 5]. split; reflexivity. }
  assert (explicit_shapes MatMul [[3; 4]; [2; 3; 4; 5]]) as Hexp.
  { simpl. split; [lia|]. split; [lia|]. left. by exists [2; 3]. }
  split; [exact Hvalid|]. split; [exact Hexp|].
  exact (gradient_shapes_of_explicit_applications MatMul inputs out_grad
           [[3; 4]; [2; 3; 4; 5]] Hvalid eq_refl Hexp).
Defined.

(** C2, at the application that breaks it: [a] of shape (1, 2, 3) times
    [b] of shape (5, 3, 4) gives a node of shape (5, 2, 4); the gradient
    returned for [a] is [g @ transpose(b)] as it is, of shape (5, 2, 3) and
    the same rank as [a], so no axis is summed and its shape is not [a]'s
    (1, 2, 3). *)
Theorem MatMul_gradient_keeps_stretched_batch_axis :
  let lhs := Const (full [1; 2; 3] 1) in
  let rhs := Const (full [5; 3; 4] 1) in
  let out_grad := Const (full [5; 2; 4] 1) in
  shape_of (matmul lhs rhs) = Some [5; 2; 4] /\
  gradient MatMul out_grad (matmul lhs rhs) =
    Some (Tuple [matmul out_grad (transpose rhs None);
                 matmul (transpose lhs None) out_grad]) /\
  shape_of (matmul out_grad (transpose rhs None)) = Some [5; 2; 3] /\
  shape_of lhs = Some [1; 2; 3] /\
  ~ same_shape (matmul out_grad (transpose rhs None)) lhs.
Proof.
  intros lhs rhs out_grad. repeat split; try reflexivity.
  intros (s & Hg & Hx). vm_compute in Hg, Hx. congruence.
Qed.

Lemma BroadcastTo_shape_inv target sx s :
  compute_shape (BroadcastTo target) [sx] = Some s ->
  target = Z.of_nat <$> s /\ broadcastable_to sx s = true.
Proof.
  simpl. destruct (to_nat_shape target) as [t|] eqn:Ht; [|done]. simpl.
  destruct (broadcastable_to sx t) eqn:Hb; [|done]. intros; simplify_eq.
  split; [by apply to_nat_shape_inv|done].
Qed.

(** C3: for [BroadcastTo(target)] applied to an input whose shape
    broadcasts to [target], [gradient] returns the sum of the output
    gradient over exactly the axes [i] at which the input shape,
    left-padded with 1s to the target's rank, differs from the target,
    reshaped to the input's shape; the sum and the reshape succeed and the
    result has the input's shape. *)
Theorem BroadcastTo_gradient_sums_differing_axes target x out_grad in_shape s :
  shape_of x = Some in_shape ->
  shape_of (broadcast_to x target) = Some s ->
  shape_of out_grad = Some s ->
  let axes := reduction_axes target (as_tuple in_shape) in
  gradient (BroadcastTo target) out_grad (broadcast_to x target) =
    Some (Single (reshape (summation out_grad (AxesTuple (Z.of_nat <$> axes)))
                          (as_tuple in_shape))) /\
  (forall i, i ∈ axes <->
     i < length target /\
     target !! i ≠ left_pad_ones (length target) (as_tuple in_shape) !! i) /\
  NoDup axes /\
  shape_of (summation out_grad (AxesTuple (Z.of_nat <$> axes))) = Some (kept_axes 0 axes s) /\
  shape_of (reshape (summation out_grad (AxesTuple (Z.of_nat <$> axes))) (as_tuple in_shape))
    = Some in_shape.
Proof.
  intros Hx Hnode Hg axes.
  unfold broadcast_to in Hnode. rewrite shape_of_unary, Hx in Hnode. simpl in Hnode.
  pose proof Hnode as Hcomp.
  apply (BroadcastTo_shape_inv target in_shape s) in Hnode as [Htarget Hb].
  split; [|split; [|split; [|split]]].
  - simpl. rewrite Hx. simpl. by rewrite differing_axes_gradient.
  - intros i. unfold axes, reduction_axes. rewrite list_elem_of_filter, elem_of_seq.
    split; [intros [? ?]|intros [? ?]]; (split; [done || lia|done || lia]).
  - apply reduction_axes_NoDup.
  - rewrite shape_of_summation, Hg. simpl.
    rewrite normalize_axes_of_nat.
    + simpl. by rewrite decide_True by apply reduction_axes_NoDup.
    + assert (length target = length s) as <- by (by rewrite Htarget, length_fmap).
      apply reduction_axes_lt.
  - by eapply grad_shape_BroadcastTo.
Qed.

(** The statement of C3 at the step of the end-to-end scenario of
    section 8: an input of shape (2, 3, 1) broadcast to (2, 3, 4); the
    gradient sums over axis 2. *)
Lemma BroadcastTo_gradient_sums_differing_axes_witness :
  let x := Const (full [2; 3; 1] 1) in
  let out_grad := Const (full [2; 3; 4] 1) in
  reduction_axes [2; 3; 4]%Z (as_tuple [2; 3; 1]) = [2] /\
  shape_of (reshape (summation out_grad (AxesTuple [2%Z])) (as_tuple [2; 3; 1]))
    = Some [2; 3; 1].
Proof.
  intros x out_grad. split; [reflexivity|].
  exact (proj2 (proj2 (proj2 (proj2
    (BroadcastTo_gradient_sums_differing_axes [2; 3; 4]%Z x out_grad [2; 3; 1] [2; 3; 4]
       eq_refl eq_refl eq_refl))))).
Defined.

(** C4, at the application that breaks it: [Summation(-1)] on an input of
    shape (2, 3) reduces axis 1 and gives shape (2,); its gradient tests
    the positions 0 and 1 against the tuple (-1,), sets no size to 1, and
    reshapes the output gradient to (2, 3) instead of (2, 1), which the
    backend rejects. *)
Theorem Summation_gradient_negative_axis_unrestored :
  let x := Const (full [2; 3] 1) in
  let out_grad := Const (full [2] 1) in
  Summation_init (AxesInt (-1)) = Summation (Some [(-1)%Z]) /\
  shape_of (summation x (AxesInt (-1))) = Some [2] /\
  gradient (Summation_init (AxesInt (-1))) out_grad (summation x (AxesInt (-1))) =
    Some (Single (broadcast_to (reshape out_grad [2; 3]%Z) [2; 3]%Z)) /\
  realize_cached_data (reshape out_grad [2; 3]%Z) = None /\
  realize_cached_data (broadcast_to (reshape out_grad [2; 3]%Z) [2; 3]%Z) = None /\
  unit_axes 1%Z 0 [1%Z] [2; 3]%Z = [2; 1]%Z.
Proof. intros x out_grad. repeat split; reflexivity. Qed.

(** C5, counterexample: [MulScalar] has one operand and its gradient is
    the one-element tuple [(out_grad * self.scalar,)], not a single node. *)
Lemma gradient_result_by_arity_fails : ~ gradient_result_by_arity.
Proof.
  intros Hclaim.
  destruct (Hclaim (MulScalar 2) [Const (full [2] 1)] (Const (full [2] 1)))
    as (r & Hr & Hone & _).
  { exists [2]. split; reflexivity. }
  simpl in Hr. injection Hr as <-.
  destruct (Hone eq_refl) as [t Ht]. discriminate.
Qed.

(** *** Values of nodes *)

Lemma realize_unary op a :
  realize_cached_data (MakeOp op [a]) = va ← realize_cached_data a; compute op [va].
Proof. simpl. by destruct (realize_cached_data a). Qed.

Lemma realize_binary op a b :
  realize_cached_data (MakeOp op [a; b]) =
  va ← realize_cached_data a; vb ← realize_cached_data b; compute op [va; vb].
Proof.
  simpl. destruct (realize_cached_data a); [|done]. simpl.
  by destruct (realize_cached_data b).
Qed.

(** An elementwise operation on two arrays of one shape works position
    by position. *)
Lemma ewise_same_shape f a b :
  shape a = shape b ->
  exists r, ewise f a b = Some r /\ shape r = shape a /\
            forall idx, in_bounds (shape a) idx -> item r idx = f (item a idx) (item b idx).
Proof.
  intros Hs. unfold ewise. rewrite <- Hs, broadcast_shapes_same. simpl.
  eexists. split; [done|]. split; [done|]. simpl. intros idx Hidx.
  by rewrite broadcast_index_in_bounds.
Qed.

Lemma powerRZ_2 x : powerRZ x 2 = (x * x)%R.
Proof. simpl. lra. Qed.

(** C6: for [EWiseDiv] applied to [a] and [b] with output gradient [g],
    [gradient] returns the pair (g / b, -g * a / b ** 2); their values are
    the backend's [g / b] and [(-g * a) / b ** 2], and on operands of one
    shape the entries are g/b and -(g a / b^2) at every position. *)
Theorem EWiseDiv_gradient_rule out_grad a b :
  gradient EWiseDiv out_grad (divide a b) =
    Some (Tuple [Tensor_truediv out_grad b;
                 Tensor_truediv (Tensor_mul (Tensor_neg out_grad) a) (Tensor_pow b 2)]) /\
  forall vg va vb,
    realize_cached_data out_grad = Some vg ->
    realize_cached_data a = Some va ->
    realize_cached_data b = Some vb ->
    realize_cached_data (Tensor_truediv out_grad b) = array_api.divide vg vb /\
    realize_cached_data (Tensor_truediv (Tensor_mul (Tensor_neg out_grad) a) (Tensor_pow b 2)) =
      (n ← array_api.multiply (array_api.negative vg) va;
       array_api.divide n (array_api.power vb 2)) /\
    (shape vg = shape va -> shape va = shape vb ->
     exists v1 v2,
       realize_cached_data (Tensor_truediv out_grad b) = Some v1 /\
       realize_cached_data
         (Tensor_truediv (Tensor_mul (Tensor_neg out_grad) a) (Tensor_pow b 2)) = Some v2 /\
       shape v1 = shape va /\ shape v2 = shape vb /\
       forall idx, in_bounds (shape va) idx ->
         item v1 idx = (item vg idx / item vb idx)%R /\
         item v2 idx = (- (item vg idx * item va idx / (item vb idx * item vb idx)))%R).
Proof.
  split; [done|]. intros vg va vb Hg Ha Hb.
  assert (realize_cached_data (Tensor_truediv out_grad b) = array_api.divide vg vb) as H1.
  { unfold Tensor_truediv. by rewrite realize_binary, Hg, Hb. }
  assert (realize_cached_data
            (Tensor_truediv (Tensor_mul (Tensor_neg out_grad) a) (Tensor_pow b 2)) =
          (n ← array_api.multiply (array_api.negative vg) va;
           array_api.divide n (array_api.power vb 2))) as H2.
  { unfold Tensor_truediv, Tensor_mul, Tensor_neg, Tensor_pow.
    rewrite realize_binary, realize_binary, !realize_unary, Hg, Ha, Hb. simpl.
    by destruct (array_api.multiply (negative vg) va). }
  split; [done|]. split; [done|]. intros Hga Hab.
  rewrite H1, H2.
  destruct (ewise_same_shape Rdiv vg vb) as (v1 & Hv1 & Hs1 & Hi1); [congruence|].
  destruct (ewise_same_shape Rmult (negative vg) va) as (vn & Hvn & Hsn & Hin); [done|].
  destruct (ewise_same_shape Rdiv vn (power vb 2)) as (v2 & Hv2 & Hs2 & Hi2).
  { rewrite Hsn. simpl. congruence. }
  exists v1, v2. unfold array_api.divide, array_api.multiply. rewrite Hv1, Hvn. simpl.
  rewrite Hv2. split; [done|]. split; [done|].
  split; [congruence|]. split; [rewrite Hs2, Hsn; simpl; congruence|].
  intros idx Hidx. split.
  - apply Hi1. by rewrite Hga.
  - rewrite Hi2 by (rewrite Hsn; simpl; by rewrite Hga).
    rewrite Hin by (simpl; by rewrite Hga).
    unfold power, negative, map_array. cbn [item].
    rewrite powerRZ_2. unfold Rdiv. lra.
Qed.

(** The statement of C6 at operands of shape (2,): g = 6, a = 3, b = 2. *)
Lemma EWiseDiv_gradient_rule_witness :
  let g := Const (full [2] 6) in
  let a := Const (full [2] 3) in
  let b := Const (full [2] 2) in
  exists v1 v2,
    realize_cached_data (Tensor_truediv g b) = Some v1 /\
    realize_cached_data (Tensor_truediv (Tensor_mul (Tensor_neg g) a) (Tensor_pow b 2)) = Some v2 /\
    shape v1 = [2] /\ shape v2 = [2] /\
    forall idx, in_bounds [2] idx ->
      item v1 idx = (6 / 2)%R /\ item v2 idx = (- (6 * 3 / (2 * 2)))%R.
Proof.
  intros g a b.
  exact (proj2 (proj2 (proj2 (EWiseDiv_gradient_rule g a b) (full [2] 6) (full [2] 3)
                         (full [2] 2) eq_refl eq_refl eq_refl)) eq_refl eq_refl).
Defined.

(** *** ReLU *)

Lemma broadcast_shapes_one_total s :
  broadcast_shapes s [1] = Some (if decide (s = []) then [1] else s).
Proof.
  destruct s as [|d s]; [done|]. rewrite decide_False by done.
  by apply broadcast_shapes_one.
Qed.

(** The operand [[0]] reads 0 at every position of the result. *)
Lemma item_zero_operand idx :
  item (of_list [0%R]) (broadcast_index [1] idx) = 0%R.
Proof.
  unfold broadcast_index. simpl.
  by destruct (drop (length idx - 1) idx) as [|i l].
Qed.

Lemma ReLU_compute a :
  exists r, compute ReLU [a] = Some r /\
    shape r = (if decide (shape a = []) then [1] else shape a) /\
    forall idx, item r idx = Rmax (item a (broadcast_index (shape a) idx)) 0.
Proof.
  simpl. unfold maximum, ewise.
  change (shape (of_list [0%R])) with [1]. rewrite broadcast_shapes_one_total. simpl.
  eexists. split; [done|]. split; [done|]. intros idx. simpl.
  f_equal. exact (item_zero_operand idx).
Qed.

(** The shape of a ReLU result is never that of a scalar, and an
    in-bounds position of it is read at itself. *)
Lemma ReLU_shape_nonempty (s : list nat) : (if decide (s = []) then [1] else s) ≠ [].
Proof. by case_decide. Qed.

(** C10 (amended): for every array [a] with at least one axis,
    [ReLU.compute] gives the elementwise maximum of [a] and 0: the array
    of the shape of [a] that holds max(a_i, 0) at every position; for
    every array [a], [ReLU.compute] succeeds, each entry of its result is
    the maximum of the entry of [a] it reads and 0, every entry of the
    result is non-negative, and computing ReLU of the result gives the
    result again. *)
Theorem ReLU_compute_is_maximum_with_zero a :
  exists r, compute ReLU [a] = Some r /\
    (forall idx, item r idx = Rmax (item a (broadcast_index (shape a) idx)) 0) /\
    (forall idx, in_bounds (shape a) idx -> item r idx = Rmax (item a idx) 0) /\
    (shape a ≠ [] -> shape r = shape a) /\
    (shape a ≠ [] -> array_equal r (map_array (fun t => Rmax t 0) a)) /\
    (forall idx, (0 <= item r idx)%R) /\
    exists r', compute ReLU [r] = Some r' /\ array_equal r' r.
Proof.
  destruct (ReLU_compute a) as (r & Hr & Hs & Hi).
  exists r. split; [done|]. split; [done|].
  assert (forall idx, in_bounds (shape a) idx -> item r idx = Rmax (item a idx) 0) as Hin.
  { intros idx Hidx. by rewrite Hi, broadcast_index_in_bounds. }
  assert (shape a ≠ [] -> shape r = shape a) as Hshape.
  { intros Hne. by rewrite Hs, decide_False. }
  split; [done|]. split; [done|]. split; [|split].
  - intros Hne. split; [by apply Hshape|].
    intros idx Hidx. simpl. apply Hin. by rewrite <- Hshape.
  - intros idx. rewrite Hi. apply Rmax_r.
  - destruct (ReLU_compute r) as (r' & Hr' & Hs' & Hi').
    exists r'. split; [done|].
    assert (shape r' = shape r) as Hshape'.
    { rewrite Hs', decide_False; [done|]. rewrite Hs. apply ReLU_shape_nonempty. }
    split; [done|]. intros idx Hidx.
    rewrite Hi', broadcast_index_in_bounds by (by rewrite <- Hshape').
    apply Rmax_left. rewrite Hi. apply Rmax_r.
Qed.

(** C10, counterexample: [ReLU.compute] takes [maximum(a, [0])], whose
    second operand is a list of one entry and has shape (1,); on the 0-d
    array that holds 3 the result has shape (1,), and the elementwise
    maximum of that array and 0 has shape (). *)
Lemma ReLU_is_elementwise_maximum_fails : ~ ReLU_is_elementwise_maximum.
Proof.
  intros Hclaim. destruct (Hclaim (full [] 3)) as (r & Hr & Hs & _).
  destruct (ReLU_compute (full [] 3)) as (r' & Hr' & Hs' & _).
  rewrite Hr' in Hr. injection Hr as <-. rewrite Hs' in Hs. discriminate.
Qed.

(** The statement of C10 (amended) at the array [-1, -1, -1]: the result
    is the elementwise maximum with 0, every entry max(-1, 0). *)
Lemma ReLU_compute_is_maximum_with_zero_witness :
  [3] ≠ [] /\
  exists r, compute ReLU [full [3] (-1)] = Some r /\
    array_equal r (map_array (fun t => Rmax t 0) (full [3] (-1))) /\
    (forall idx, in_bounds [3] idx -> item r idx = Rmax (-1) 0) /\ shape r = [3].
Proof.
  assert ([3] ≠ @nil nat) as Hne by discriminate.
  split; [exact Hne|].
  destruct (ReLU_compute_is_maximum_with_zero (full [3] (-1)))
    as (r & Hr & _ & Hin & Hs & Heq & _).
  exists r. split; [exact Hr|]. split; [exact (Heq Hne)|].
  split; [exact Hin|exact (Hs Hne)].
Defined.

(** C7: an entry of the input that is exactly 0 gives 0 in the forward
    result of ReLU; the mask of the gradient is the strict comparison of
    the realized input with 0, so it is 1 where the input is positive and
    0 elsewhere, and at an entry exactly 0 it is 0 and not 1; the gradient
    is the output gradient times that mask and is 0 at such an entry. *)
Theorem ReLU_boundary_at_zero x input out_grad :
  realize_cached_data x = Some input ->
  (exists r, realize_cached_data (relu x) = Some r /\
     (forall idx, item input (broadcast_index (shape input) idx) = 0%R -> item r idx = 0%R) /\
     (forall idx, in_bounds (shape input) idx -> item input idx = 0%R -> item r idx = 0%R)) /\
  let mask := greater_scalar input 0 in
  gradient ReLU out_grad (relu x) = Some (Single (Tensor_mul out_grad (Const mask))) /\
  shape mask = shape input /\
  (forall idx, (item input idx > 0)%R -> item mask idx = 1%R) /\
  (forall idx, (item input idx <= 0)%R -> item mask idx = 0%R) /\
  (forall idx, item input idx = 0%R -> item mask idx = 0%R /\ item mask idx ≠ 1%R) /\
  (forall vg, realize_cached_data out_grad = Some vg -> shape vg = shape input ->
     exists v, realize_cached_data (Tensor_mul out_grad (Const mask)) = Some v /\
       shape v = shape input /\
       forall idx, in_bounds (shape input) idx -> item input idx = 0%R -> item v idx = 0%R).
Proof.
  intros Hx.
  assert (forall v, v = 0%R -> Rmax v 0 = 0%R) as Hmax.
  { intros v ->. apply Rmax_left. lra. }
  assert (forall idx, (item input idx <= 0)%R -> item (greater_scalar input 0) idx = 0%R)
    as Hnonpos.
  { intros idx Hle. simpl. destruct (Rlt_dec 0 (item input idx)); [lra|done]. }
  split; [|split; [|split; [|split; [|split; [|split]]]]].
  - destruct (ReLU_compute input) as (r & Hr & _ & Hi).
    exists r. unfold relu. rewrite realize_unary, Hx. split; [done|].
    split.
    + intros idx H0. rewrite Hi. by apply Hmax.
    + intros idx Hidx H0. rewrite Hi, broadcast_index_in_bounds by done. by apply Hmax.
  - simpl. by rewrite Hx.
  - done.
  - intros idx Hpos. simpl. destruct (Rlt_dec 0 (item input idx)); [done|lra].
  - done.
  - intros idx H0. rewrite Hnonpos by lra. split; [done|lra].
  - intros vg Hg Hshape.
    destruct (ewise_same_shape Rmult vg (greater_scalar input 0)) as (v & Hv & Hs & Hi);
      [done|].
    exists v. unfold Tensor_mul. rewrite realize_binary, Hg. simpl.
    split; [done|]. split; [congruence|].
    intros idx Hidx H0. rewrite Hi by (by rewrite Hshape).
    rewrite Hnonpos by lra. lra.
Qed.

(** The statement of C7 at the array [0, 0]. *)
Lemma ReLU_boundary_at_zero_witness :
  let x := Const (full [2] 0) in
  realize_cached_data x = Some (full [2] 0) /\
  (exists r, realize_cached_data (relu x) = Some r /\
     forall idx, in_bounds [2] idx -> item (full [2] 0) idx = 0%R -> item r idx = 0%R) /\
  forall idx, item (greater_scalar (full [2] 0) 0) idx = 0%R /\
              item (greater_scalar (full [2] 0) 0) idx ≠ 1%R.
Proof.
  intros x.
  pose proof (ReLU_boundary_at_zero x (full [2] 0) x eq_refl)
    as [(r & Hr & _ & Hin) (_ & _ & _ & _ & Hmask & _)].
  split; [reflexivity|]. split.
  - exists r. split; [exact Hr|exact Hin].
  - intros idx. apply Hmask. reflexivity.
Defined.

(** *** Transpose *)

(** C8: transposing twice with the same valid axis pair gives back the
    value of [x]; without an axis pair [compute] swaps the axes -2 and -1;
    and the gradient is the same transpose applied to the output gradient. *)
Theorem Transpose_self_inverse :
  (forall x i j vx vy,
     realize_cached_data x = Some vx ->
     realize_cached_data (transpose x (Some (i, j))) = Some vy ->
     exists vz,
       realize_cached_data (transpose (transpose x (Some (i, j))) (Some (i, j))) = Some vz /\
       array_equal vz vx) /\
  (forall a, compute (Transpose None) [a] = swapaxes a (-2) (-1) /\
             compute (Transpose None) [a] = compute (Transpose (Some (-2, -1)%Z)) [a]) /\
  (forall axes out_grad node,
     gradient (Transpose axes) out_grad node = Some (Single (transpose out_grad axes))).
Proof.
  split; [|split; [done|done]].
  intros x i j vx vy Hx Hy. unfold transpose in *.
  rewrite realize_unary, Hy. rewrite realize_unary, Hx in Hy. simpl in *.
  unfold swapaxes, ndim in *.
  destruct (normalize_axis i (length (shape vx))) as [p|] eqn:Hp; [|done].
  destruct (normalize_axis j (length (shape vx))) as [q|] eqn:Hq; [|done].
  simplify_eq/=. rewrite length_swap_list, Hp, Hq. simpl.
  eexists. split; [done|]. split; simpl.
  - apply swap_list_involutive.
  - intros idx _. by rewrite swap_list_involutive.
Qed.

(** The statement of C8 at an array of shape (2, 3, 4) and the axis pair
    (0, -1). *)
Lemma Transpose_self_inverse_witness :
  let x := Const (full [2; 3; 4] 1) in
  shape_of (transpose x (Some (0, -1)%Z)) = Some [4; 3; 2] /\
  exists vz,
    realize_cached_data (transpose (transpose x (Some (0, -1)%Z)) (Some (0, -1)%Z)) = Some vz /\
    array_equal vz (full [2; 3; 4] 1).
Proof.
  intros x. split; [reflexivity|].
  exact (proj1 Transpose_self_inverse x 0%Z (-1)%Z (full [2; 3; 4] 1) _ eq_refl eq_refl).
Defined.

(** *** Summation with axes counted from the end *)

Lemma normalize_axes_neg axes n reduced :
  Forall (fun ax => ax < 0)%Z axes ->
  mapM (fun ax => normalize_axis ax n) axes = Some reduced ->
  reduced = (fun ax => Z.to_nat (ax + Z.of_nat n)) <$> axes.
Proof.
  intros Hneg Hm. apply mapM_Some_1 in Hm.
  induction Hm as [|ax i axes reduced Hi Hm IH]; [done|].
  apply Forall_cons in Hneg as [Hax Hneg]. rewrite fmap_cons. f_equal; [|by apply IH].
  apply normalize_axis_neg_inv in Hi; [|done]. lia.
Qed.

Lemma length_kept_axes_le {A} pos reduced (s : list A) :
  length (kept_axes pos reduced s) ≤ length s.
Proof.
  revert pos. induction s as [|d s IH]; intros pos; simpl; [done|].
  specialize (IH (S pos)). case_bool_decide; simpl; lia.
Qed.

(** Reducing an axis of the array removes it from the shape. *)
Lemma length_kept_axes_lt {A} pos reduced (s : list A) p :
  p ∈ reduced -> pos ≤ p < pos + length s ->
  length (kept_axes pos reduced s) < length s.
Proof.
  revert pos. induction s as [|d s IH]; intros pos Hp Hrange; simpl in *; [lia|].
  pose proof (length_kept_axes_le (S pos) reduced s) as Hle.
  destruct (decide (p = pos)) as [->|Hne].
  - rewrite bool_decide_eq_true_2 by done. lia.
  - specialize (IH (S pos) Hp ltac:(lia)). case_bool_decide; simpl; lia.
Qed.

Lemma Summation_gradient_unfold axes out_grad x inputs :
  gradient (Summation axes) out_grad (MakeOp (Summation axes) (x :: inputs)) =
  in_shape ← shape_of x;
  out_shape ← restored_shape axes (as_tuple in_shape);
  Some (Single (broadcast_to (reshape out_grad out_shape) (as_tuple in_shape))).
Proof. done. Qed.

(** C9: for [Summation] built with a non-empty tuple of negative axes and
    an input of rank at least 1, no position of the loop occurs in the
    tuple, so the shape the gradient reshapes the output gradient to is
    the whole input shape; while the forward computation, when the backend
    accepts the axes, reduces the axes they count from the end and gives a
    shape of smaller rank. *)
Theorem Summation_gradient_negative_axes axes x out_grad in_shape :
  axes ≠ [] ->
  Forall (fun ax => ax < 0)%Z axes ->
  shape_of x = Some in_shape ->
  1 ≤ length in_shape ->
  Summation_init (AxesTuple axes) = Summation (Some axes) /\
  (forall i : nat, Z.of_nat i ∉ axes) /\
  restored_shape (Some axes) (as_tuple in_shape) = Some (as_tuple in_shape) /\
  gradient (Summation_init (AxesTuple axes)) out_grad (summation x (AxesTuple axes)) =
    Some (Single (broadcast_to (reshape out_grad (as_tuple in_shape)) (as_tuple in_shape))) /\
  (forall s, shape_of (summation x (AxesTuple axes)) = Some s ->
     s = kept_axes 0 ((fun ax => Z.to_nat (ax + Z.of_nat (length in_shape))) <$> axes) in_shape /\
     length s < length in_shape).
Proof.
  intros Hne Hneg Hx Hrank.
  assert (restored_shape (Some axes) (as_tuple in_shape) = Some (as_tuple in_shape)) as Hres.
  { by rewrite restored_shape_Some, unit_axes_none. }
  split; [done|]. split; [|split; [done|split]].
  - intros i Hin. rewrite Forall_forall in Hneg. apply Hneg in Hin. lia.
  - unfold summation, Summation_init. rewrite Summation_gradient_unfold, Hx.
    cbn [mbind option_bind]. by rewrite Hres.
  - intros s. rewrite shape_of_summation, Hx. simpl.
    destruct (mapM _ axes) as [reduced|] eqn:Hred; [|done]. simpl.
    case_decide; [|done]. intros; simplify_eq.
    pose proof (normalize_axes_neg _ _ _ Hneg Hred) as ->. split; [done|].
    destruct axes as [|ax axes]; [done|].
    apply mapM_Some_1 in Hred. rewrite fmap_cons in Hred.
    apply Forall2_cons_1 in Hred as [Hax _]. apply normalize_axis_lt in Hax.
    eapply (length_kept_axes_lt 0 _ in_shape); [rewrite fmap_cons; apply list_elem_of_here|].
    lia.
Qed.

(** The statement of C9 at [Summation((-1,))] on an input of shape (2, 3). *)
Lemma Summation_gradient_negative_axes_witness :
  let x := Const (full [2; 3] 1) in
  [(-1)%Z] ≠ [] /\ Forall (fun ax => ax < 0)%Z [(-1)%Z] /\
  restored_shape (Some [(-1)%Z]) (as_tuple [2; 3]) = Some (as_tuple [2; 3]) /\
  shape_of (summation x (AxesTuple [(-1)%Z])) = Some [2].
Proof.
  intros x.
  assert ([(-1)%Z] ≠ []) as Hne by discriminate.
  assert (Forall (fun ax => ax < 0)%Z [(-1)%Z]) as Hneg by (repeat constructor).
  split; [exact Hne|]. split; [exact Hneg|]. split; [|reflexivity].
  exact (proj1 (proj2 (proj2
    (Summation_gradient_negative_axes [(-1)%Z] x x [2; 3] Hne Hneg eq_refl
       ltac:(simpl; lia))))).
Defined.

End claims.


(** ** Further properties of the operators *)

Section operator_shapes.
Import array_api ops.

Lemma broadcast_dim_comm d1 d2 : broadcast_dim d1 d2 = broadcast_dim d2 d1.
Proof. unfold broadcast_dim. repeat case_decide; congruence. Qed.

Lemma zip_broadcast_comm s1 s2 : zip_broadcast s1 s2 = zip_broadcast s2 s1.
Proof.
  revert s2. induction s1 as [|d1 s1 IH]; intros [|d2 s2]; try done.
  by rewrite !zip_broadcast_cons, broadcast_dim_comm, IH.
Qed.

Lemma broadcast_shapes_comm s1 s2 : broadcast_shapes s1 s2 = broadcast_shapes s2 s1.
Proof.
  rewrite !broadcast_shapes_zip, (Nat.max_comm (length s2)). apply zip_broadcast_comm.
Qed.

(** A broadcast result broadcasts with each operand to itself, on
    either side. *)
Lemma broadcast_shapes_absorb s1 s2 o :
  broadcast_shapes s1 s2 = Some o ->
  broadcast_shapes o s1 = Some o /\ broadcast_shapes o s2 = Some o.
Proof.
  intros H. split.
  - rewrite broadcast_shapes_comm. by eapply broadcast_shapes_absorb_l.
  - by eapply broadcast_shapes_absorb_r.
Qed.

(** The gradients of the elementwise operators of two operands are not
    reduced: each has the shape of the node, the broadcast of the two
    operand shapes. *)
Theorem elementwise_gradients_have_node_shape self a b out_grad s :
  self = EWiseAdd \/ self = EWiseMul \/ self = EWiseDiv ->
  shape_of (MakeOp self [a; b]) = Some s ->
  shape_of out_grad = Some s ->
  exists ta tb,
    gradient self out_grad (MakeOp self [a; b]) = Some (Tuple [ta; tb]) /\
    shape_of ta = Some s /\ shape_of tb = Some s.
Proof.
  intros Hop Hnode Hg. rewrite shape_of_binary in Hnode.
  destruct (shape_of a) as [sa|] eqn:Ha; [|done].
  destruct (shape_of b) as [sb|] eqn:Hb; [|done]. simpl in Hnode.
  assert (broadcast_shapes sa sb = Some s) as Hs.
  { by destruct Hop as [-> | [-> | ->]]. }
  destruct (broadcast_shapes_absorb _ _ _ Hs) as [Hsa Hsb].
  assert (forall op t u st su o, op = EWiseMul \/ op = EWiseDiv ->
            shape_of t = Some st -> shape_of u = Some su ->
            broadcast_shapes st su = Some o -> shape_of (MakeOp op [t; u]) = Some o) as Hbin.
  { intros op t u st su o Hop' Ht Hu Ho. rewrite shape_of_binary, Ht, Hu.
    by destruct Hop' as [-> | ->]. }
  destruct Hop as [-> | [-> | ->]]; eexists _, _; (split; [done|]).
  - done.
  - split; eapply Hbin; eauto.
  - split; [eapply Hbin; eauto|].
    eapply Hbin; [by auto| |by apply shape_of_map; [|exact Hb]|exact Hsb].
    eapply Hbin; [by auto|by apply shape_of_map; [|exact Hg]|exact Ha|exact Hsa].
Qed.

(** On operands of shapes (2, 3) and (3,) both gradients of [EWiseMul]
    have shape (2, 3). *)
Lemma elementwise_gradients_have_node_shape_witness :
  let a := Const (full [2; 3] 1) in
  let b := Const (full [3] 1) in
  exists ta tb,
    gradient EWiseMul a (MakeOp EWiseMul [a; b]) = Some (Tuple [ta; tb]) /\
    shape_of ta = Some [2; 3] /\ shape_of tb = Some [2; 3].
Proof.
  intros a b.
  exact (elementwise_gradients_have_node_shape EWiseMul a b a [2; 3]
           (or_intror (or_introl eq_refl)) eq_refl eq_refl).
Defined.

Lemma transpose_None_low_rank (s : list nat) :
  length s < 2 -> compute_shape (Transpose None) [s] = None.
Proof.
  intros Hlen. simpl.
  destruct (normalize_axis (-2) (length s)) as [i|] eqn:Hi; [|done].
  unfold normalize_axis in Hi. case_decide; [lia|done].
Qed.

(** [MatMul.gradient] transposes both operands with the default axes, so
    it raises when an operand has fewer than two axes, also where the
    forward product of a vector is defined. *)
Theorem MatMul_gradient_raises_on_vectors lhs rhs out_grad sa sb :
  shape_of lhs = Some sa -> shape_of rhs = Some sb ->
  length sa < 2 \/ length sb < 2 ->
  gradient MatMul out_grad (matmul lhs rhs) = None.
Proof.
  intros Hl Hr Hrank.
  assert (length sb < 2 -> shape_of (matmul out_grad (transpose rhs None)) = None) as H1.
  { intros Hb. unfold matmul, transpose.
    rewrite shape_of_binary, (shape_of_unary _ rhs), Hr. cbn [mbind option_bind].
    rewrite transpose_None_low_rank by done. by destruct (shape_of out_grad). }
  assert (length sa < 2 -> shape_of (matmul (transpose lhs None) out_grad) = None) as H2.
  { intros Ha. unfold matmul, transpose.
    rewrite shape_of_binary, (shape_of_unary _ lhs), Hl. cbn [mbind option_bind].
    by rewrite transpose_None_low_rank by done. }
  unfold matmul at 1. cbn [gradient inputs_of].
  destruct Hrank as [Ha|Hb].
  - rewrite (H2 Ha), Hl. by destruct (shape_of (matmul out_grad (transpose rhs None))).
  - by rewrite (H1 Hb).
Qed.

(** A vector of 3 entries times a (3, 4) matrix is defined, and its
    gradient raises. *)
Lemma MatMul_gradient_raises_on_vectors_witness :
  let lhs := Const (full [3] 1) in
  let rhs := Const (full [3; 4] 1) in
  shape_of (matmul lhs rhs) = Some [4] /\
  gradient MatMul (Const (full [4] 1)) (matmul lhs rhs) = None.
Proof.
  intros lhs rhs. split; [reflexivity|].
  apply (MatMul_gradient_raises_on_vectors lhs rhs _ [3] [3; 4] eq_refl eq_refl).
  left. simpl. lia.
Defined.

Lemma restore_leading_axes_by grad (k b : list nat) (batch : Z) :
  shape_of grad = Some (k ++ b) ->
  batch = Z.of_nat (length k) ->
  shape_of (if decide (batch > 0)%Z
            then summation grad (AxesTuple (seqZ 0 batch)) else grad) = Some b.
Proof.
  intros Hgrad ->. pose proof (restore_leading_axes grad k b Hgrad) as H.
  simpl in H. by replace (Z.of_nat (length (k ++ b)) - Z.of_nat (length b))%Z
    with (Z.of_nat (length k)) in H by (rewrite length_app; lia).
Qed.

(** On matrices or batches of matrices [MatMul.gradient] returns, and
    each gradient keeps, of the batch axes of the result, as many trailing
    ones as its operand has batch axes: an axis of size 1 that the product
    stretched stays stretched. *)
Theorem MatMul_gradient_shapes lhs rhs out_grad ba bb m k n o :
  shape_of lhs = Some (ba ++ [m; k]) ->
  shape_of rhs = Some (bb ++ [k; n]) ->
  broadcast_shapes ba bb = Some o ->
  shape_of out_grad = Some (o ++ [m; n]) ->
  shape_of (matmul lhs rhs) = Some (o ++ [m; n]) /\
  exists t1 t2,
    gradient MatMul out_grad (matmul lhs rhs) = Some (Tuple [t1; t2]) /\
    shape_of t1 = Some (drop (length o - length ba) o ++ [m; k]) /\
    shape_of t2 = Some (drop (length o - length bb) o ++ [k; n]).
Proof.
  intros Hl Hr Ho Hg.
  pose proof (broadcast_shapes_length _ _ _ Ho) as Hlen.
  split; [by eapply shape_of_matmul|].
  pose proof (shape_of_transpose_None _ _ _ _ Hl) as Hlt.
  pose proof (shape_of_transpose_None _ _ _ _ Hr) as Hrt.
  assert (shape_of (matmul out_grad (transpose rhs None)) = Some (o ++ [m; k])) as H1.
  { apply (shape_of_matmul _ _ _ _ _ _ _ o Hg Hrt). by eapply broadcast_shapes_absorb_r. }
  assert (shape_of (matmul (transpose lhs None) out_grad) = Some (o ++ [k; n])) as H2.
  { apply (shape_of_matmul _ _ _ _ _ _ _ o Hlt Hg). by eapply broadcast_shapes_absorb_l. }
  unfold matmul at 1. cbn [gradient inputs_of]. rewrite H1, Hl, H2, Hr.
  cbn [mbind option_bind]. eexists _, _. split; [done|]. split.
  - apply restore_leading_axes_by with (k := take (length o - length ba) o).
    + by rewrite H1, app_assoc, take_drop.
    + rewrite !length_app, length_take. simpl. lia.
  - apply restore_leading_axes_by with (k := take (length o - length bb) o).
    + by rewrite H2, app_assoc, take_drop.
    + rewrite !length_app, length_take. simpl. lia.
Qed.

(** With [a] of shape (2, 1, 2, 3) and [b] of shape (5, 3, 4) the
    gradients have shapes (2, 5, 2, 3) and (5, 3, 4). *)
Lemma MatMul_gradient_shapes_witness :
  let lhs := Const (full [2; 1; 2; 3] 1) in
  let rhs := Const (full [5; 3; 4] 1) in
  let out_grad := Const (full [2; 5; 2; 4] 1) in
  exists t1 t2,
    gradient MatMul out_grad (matmul lhs rhs) = Some (Tuple [t1; t2]) /\
    shape_of t1 = Some [2; 5; 2; 3] /\ shape_of t2 = Some [5; 3; 4].
Proof.
  intros lhs rhs out_grad.
  exact (proj2 (MatMul_gradient_shapes lhs rhs out_grad [2; 1] [5] 2 3 4 [2; 5]
                  eq_refl eq_refl eq_refl eq_refl)).
Defined.

End operator_shapes.

Section operator_edges.
Import array_api ops.

Lemma broadcastable_to_refl (s : list nat) : broadcastable_to s s = true.
Proof.
  rewrite broadcastable_to_same_rank by done.
  induction s as [|d s IH]; simpl; [done|].
  by rewrite IH, bool_decide_eq_true_2.
Qed.

(** A reshape to a shape read from an array succeeds exactly on the
    arrays with as many entries. *)
Lemma reshape_target_as_tuple_iff sz (s : list nat) :
  reshape_target sz (Z.of_nat <$> s) = if decide (size_of s = sz) then Some s else None.
Proof.
  case_decide as Hsz.
  - rewrite <- Hsz. apply reshape_target_as_tuple.
  - unfold reshape_target. rewrite (filter_all (fun d => d ≠ (-1)%Z)).
    + rewrite decide_True by (apply Forall_fmap, Forall_true; intros d; simpl; lia).
      rewrite Nat.sub_diag, to_nat_of_nat_fmap. by rewrite decide_False.
    + apply Forall_fmap, Forall_true. intros d. simpl. lia.
Qed.

(** With axes counted from the end, [Summation.gradient] reshapes the
    output gradient to the whole input shape, so it can be computed
    exactly when the reduced array has as many entries as the input (the
    reduced axes have size 1, or the array is empty), and then it has the
    input's shape; otherwise the reshape is rejected. *)
Theorem Summation_negative_axes_gradient_computable axes x out_grad in_shape s :
  Forall (fun ax => ax < 0)%Z axes ->
  shape_of x = Some in_shape ->
  shape_of (summation x (AxesTuple axes)) = Some s ->
  shape_of out_grad = Some s ->
  exists t,
    gradient (Summation_init (AxesTuple axes)) out_grad (summation x (AxesTuple axes))
      = Some (Single t) /\
    shape_of t = if decide (size_of s = size_of in_shape) then Some in_shape else None.
Proof.
  intros Hneg Hx _ Hg.
  unfold summation, Summation_init. rewrite Summation_gradient_unfold, Hx.
  cbn [mbind option_bind]. rewrite restored_shape_Some, unit_axes_none by done.
  cbn [mbind option_bind]. eexists. split; [done|].
  unfold broadcast_to, reshape. rewrite !shape_of_unary, Hg. cbn [mbind option_bind].
  change (compute_shape (Reshape (as_tuple in_shape)) [s])
    with (reshape_target (size_of s) (Z.of_nat <$> in_shape)).
  rewrite reshape_target_as_tuple_iff. case_decide; [|by rewrite decide_False].
  rewrite decide_True by done. simpl.
  unfold as_tuple. rewrite to_nat_shape_as_tuple. simpl.
  by rewrite broadcastable_to_refl.
Qed.

(** [Summation(-1)] on shapes (2, 1) and (2, 3): the gradient has shape
    (2, 1) in the first case and cannot be computed in the second. *)
Lemma Summation_negative_axes_gradient_computable_witness :
  (exists t, gradient (Summation_init (AxesTuple [(-1)%Z])) (Const (full [2] 1))
               (summation (Const (full [2; 1] 1)) (AxesTuple [(-1)%Z])) = Some (Single t) /\
             shape_of t = Some [2; 1]) /\
  (exists t, gradient (Summation_init (AxesTuple [(-1)%Z])) (Const (full [2] 1))
               (summation (Const (full [2; 3] 1)) (AxesTuple [(-1)%Z])) = Some (Single t) /\
             shape_of t = None).
Proof.
  assert (Forall (fun ax => ax < 0)%Z [(-1)%Z]) as Hneg by (repeat constructor).
  split.
  - exact (Summation_negative_axes_gradient_computable [(-1)%Z] (Const (full [2; 1] 1))
             (Const (full [2] 1)) [2; 1] [2] Hneg eq_refl eq_refl eq_refl).
  - exact (Summation_negative_axes_gradient_computable [(-1)%Z] (Const (full [2; 3] 1))
             (Const (full [2] 1)) [2; 3] [2] Hneg eq_refl eq_refl eq_refl).
Defined.

(** ReLU takes the maximum with the one-entry list [[0]]: applied to a
    0-d array it returns an array of shape (1,), and the gradient it
    returns for an output gradient of that shape has shape (1,) too, not
    the operand's shape (). *)
Theorem ReLU_of_scalar_array x vx out_grad :
  realize_cached_data x = Some vx ->
  shape vx = [] ->
  shape_of out_grad = Some [1] ->
  shape_of (relu x) = Some [1] /\
  exists t, gradient ReLU out_grad (relu x) = Some (Single t) /\
            shape_of t = Some [1] /\ shape_of x = Some [].
Proof.
  intros Hx Hs Hg.
  assert (shape_of x = Some []) as Hsx by (unfold shape_of; by rewrite Hx, <- Hs).
  split.
  - unfold relu. by rewrite shape_of_unary, Hsx.
  - unfold relu. cbn [gradient inputs_of]. simpl. rewrite Hx. simpl.
    eexists. split; [done|]. split; [|done].
    unfold Tensor_mul. rewrite shape_of_binary, Hg, shape_of_Const. simpl. by rewrite Hs.
Qed.

Lemma ReLU_of_scalar_array_witness :
  let x := Const (full [] (-2)) in
  shape_of (relu x) = Some [1] /\
  exists t, gradient ReLU (Const (full [1] 1)) (relu x) = Some (Single t) /\
            shape_of t = Some [1] /\ shape_of x = Some [].
Proof.
  intros x.
  exact (ReLU_of_scalar_array x (full [] (-2)) (Const (full [1] 1)) eq_refl eq_refl eq_refl).
Defined.

(** Without an axis pair [Transpose] swaps the last two axes: on an
    array of shape (..., m, k) the result has shape (..., k, m) and its
    entry at (..., j, i) is the operand's at (..., i, j); an array with
    fewer than two axes is rejected. *)
Theorem Transpose_default_swaps_last_two a :
  (ndim a < 2 -> compute (Transpose None) [a] = None) /\
  (forall b m k, shape a = b ++ [m; k] ->
     exists r, compute (Transpose None) [a] = Some r /\
       shape r = b ++ [k; m] /\
       forall bi i j, length bi = length b ->
         item r (bi ++ [j; i]) = item a (bi ++ [i; j])).
Proof.
  split.
  - intros Hrank.
    pose proof (shape_compute (Transpose None) [a]) as Hs.
    rewrite fmap_cons in Hs. simpl (shape <$> []) in Hs.
    rewrite transpose_None_low_rank in Hs by done.
    by destruct (compute (Transpose None) [a]).
  - intros b m k Hs. simpl. unfold swapaxes, ndim, normalize_axis.
    rewrite Hs, length_app. simpl.
    rewrite !decide_True by lia. simpl.
    replace (Z.to_nat (-2 + Z.of_nat (length b + 2))) with (length b) by lia.
    replace (Z.to_nat (-1 + Z.of_nat (length b + 2))) with (S (length b)) by lia.
    eexists. split; [done|]. simpl. split; [apply swap_list_last_two|].
    intros bi i j Hlen. by rewrite <- Hlen, swap_list_last_two.
Qed.

Lemma Transpose_default_swaps_last_two_witness :
  (ndim (iota [3]) < 2 -> compute (Transpose None) [iota [3]] = None) /\
  exists r, compute (Transpose None) [iota [2; 3; 4]] = Some r /\
    shape r = [2; 4; 3] /\
    forall bi i j, length bi = 1 -> item r (bi ++ [j; i]) = item (iota [2; 3; 4]) (bi ++ [i; j]).
Proof.
  split.
  - exact (proj1 (Transpose_default_swaps_last_two (iota [3]))).
  - exact (proj2 (Transpose_default_swaps_last_two (iota [2; 3; 4])) [2] 3 4 eq_refl).
Defined.

End operator_edges.

Section reshape_values.
Import array_api ops.

Lemma ravel_foldl acc (s idx : list nat) :
  length idx = length s ->
  foldl (fun acc p => acc * p.1 + p.2) acc (zip s idx) =
  acc * size_of s + foldl (fun acc p => acc * p.1 + p.2) 0 (zip s idx).
Proof.
  revert acc idx. induction s as [|d s IH]; intros acc [|i idx] Hlen;
    simplify_eq/=; [lia|].
  rewrite (IH (acc * d + i)), (IH i) by done. lia.
Qed.

Lemma ravel_cons d s i idx :
  length idx = length s -> ravel (d :: s) (i :: idx) = i * size_of s + ravel s idx.
Proof. intros Hlen. unfold ravel. simpl. by rewrite ravel_foldl. Qed.

Lemma ravel_nil : ravel [] [] = 0.
Proof. done. Qed.

(** The row-major rank of an in-bounds position is below the number of
    entries. *)
Lemma ravel_lt s idx : in_bounds s idx -> ravel s idx < size_of s.
Proof.
  induction 1 as [|i d idx s Hi H IH]; [rewrite ravel_nil; simpl; lia|].
  rewrite ravel_cons by by eapply Forall2_length. simpl. nia.
Qed.

Lemma unravel_ravel s idx : in_bounds s idx -> unravel s (ravel s idx) = idx.
Proof.
  induction 1 as [|i d idx s Hi H IH]; [done|].
  pose proof (ravel_lt _ _ H) as Hlt.
  rewrite ravel_cons by by eapply Forall2_length. simpl.
  rewrite Nat.div_add_l, (Nat.div_small (ravel s idx)) by lia.
  rewrite Nat.add_0_r, (Nat.mod_small i) by done.
  rewrite Nat.add_comm, Nat.Div0.mod_add, Nat.mod_small by done.
  by rewrite IH.
Qed.

Lemma length_unravel s k : length (unravel s k) = length s.
Proof. revert k. induction s as [|d s IH]; intros k; simpl; [done|]. by rewrite IH. Qed.

Lemma ravel_unravel s k : k < size_of s -> ravel s (unravel s k) = k.
Proof.
  revert k. induction s as [|d s IH]; intros k Hk; simpl in *.
  - rewrite ravel_nil. lia.
  - assert (0 < size_of s) as Hpos by nia.
    rewrite ravel_cons by apply length_unravel.
    rewrite IH by (apply Nat.mod_upper_bound; lia).
    rewrite Nat.mod_small by (apply Nat.Div0.div_lt_upper_bound; lia).
    pose proof (Nat.div_mod_eq k (size_of s)). lia.
Qed.

(** Reshaping and reshaping back to the operand's shape, which is what
    [Reshape.gradient] does to the output gradient, gives the operand
    again: applied to the node itself, the gradient of a valid [Reshape]
    has the value of the operand. *)
Theorem Reshape_gradient_round_trip x shape' vx vy :
  realize_cached_data x = Some vx ->
  realize_cached_data (reshape x shape') = Some vy ->
  exists t vz,
    gradient (Reshape shape') (reshape x shape') (reshape x shape') = Some (Single t) /\
    t = reshape (reshape x shape') (as_tuple (shape vx)) /\
    realize_cached_data t = Some vz /\
    array_equal vz vx.
Proof.
  intros Hx Hy.
  pose proof Hy as Hy'. unfold reshape in Hy'. rewrite realize_unary, Hx in Hy'.
  simpl in Hy'. unfold array_api.reshape in Hy'.
  destruct (reshape_target (size_of (shape vx)) shape') as [s|] eqn:Hs; [|done].
  simpl in Hy'. injection Hy' as <-. pose proof (reshape_target_size _ _ _ Hs) as Hsz.
  exists (reshape (reshape x shape') (as_tuple (shape vx))),
         {| shape := shape vx;
            item := fun idx =>
              item vx (unravel (shape vx) (ravel s (unravel s (ravel (shape vx) idx)))) |}.
  split; [|split; [done|split]].
  - change (reshape x shape') with (MakeOp (Reshape shape') [x]).
    cbn [gradient inputs_of]. simpl lookup. cbn [mbind option_bind].
    unfold shape_of at 1. by rewrite Hx.
  - unfold reshape at 1. rewrite realize_unary, Hy. cbn [mbind option_bind compute].
    unfold array_api.reshape, as_tuple. simpl shape.
    by rewrite Hsz, reshape_target_as_tuple.
  - split; [done|]. simpl. intros idx Hidx.
    pose proof (ravel_lt _ _ Hidx) as Hlt.
    rewrite ravel_unravel by lia. by rewrite unravel_ravel.
Qed.

(** The round trip on the array 0..5 of shape (2, 3) reshaped to (3, -1). *)
Lemma Reshape_gradient_round_trip_witness :
  let x := Const (iota [2; 3]) in
  shape_of (reshape x [3; -1]%Z) = Some [3; 2] /\
  exists vz,
    realize_cached_data (reshape (reshape x [3; -1]%Z) (as_tuple [2; 3])) = Some vz /\
    array_equal vz (iota [2; 3]).
Proof.
  intros x. split; [reflexivity|].
  destruct (Reshape_gradient_round_trip x [3; -1]%Z (iota [2; 3]) _ eq_refl eq_refl)
    as (t & vz & _ & -> & Hz & Heq).
  exists vz. split; [exact Hz|exact Heq].
Defined.

End reshape_values.

Section summation_values.
Import array_api ops.

Lemma broadcast_index_same_length (s idx : list nat) :
  length idx = length s ->
  broadcast_index s idx = zip_with (fun d i => if decide (d = 1) then 0 else i) s idx.
Proof. intros Hlen. unfold broadcast_index. by rewrite Hlen, Nat.sub_diag. Qed.

Lemma in_bounds_kept_axes pos reduced s idx :
  in_bounds s idx -> in_bounds (kept_axes pos reduced s) (kept_axes pos reduced idx).
Proof.
  intros H. revert pos. induction H as [|i d idx s Hi H IH]; intros pos; simpl.
  - constructor.
  - case_bool_decide; [apply IH|]. constructor; [done|apply IH].
Qed.

(** Reading the reshaped gradient at a position of the input, with 0 at
    the axes of size 1, is reading the output gradient at the position
    with the reduced axes dropped. *)
Lemma ravel_unit_axes pos axes reduced s idx :
  (forall i, Z.of_nat i ∈ axes <-> i ∈ reduced) ->
  in_bounds s idx ->
  ravel (unit_axes 1 pos axes s)
        (zip_with (fun d i => if decide (d = 1) then 0 else i) (unit_axes 1 pos axes s) idx) =
  ravel (kept_axes pos reduced s) (kept_axes pos reduced idx).
Proof.
  intros Hmem H. revert pos. induction H as [|i d idx s Hi H IH]; intros pos; [done|].
  pose proof (Forall2_length _ _ _ H) as Hlen.
  simpl unit_axes. simpl zip_with. simpl kept_axes.
  rewrite ravel_cons by (rewrite length_zip_with, length_unit_axes; lia).
  destruct (decide (Z.of_nat pos ∈ axes)) as [Hin|Hin].
  - rewrite bool_decide_eq_true_2 by by apply Hmem.
    rewrite decide_True by done. rewrite IH. lia.
  - rewrite bool_decide_eq_false_2 by (by rewrite <- Hmem).
    rewrite ravel_cons by (apply Forall2_length with (P := fun i d => i < d);
                           by apply in_bounds_kept_axes).
    rewrite IH, <- (size_of_kept_unit (S pos) axes reduced s) by done.
    case_decide; [|done]. replace i with 0 by lia. done.
Qed.

(** The gradient of a sum over axes counted from the front gives every
    position of the input the output gradient's entry at the position with
    the reduced axes dropped: the output gradient is spread along the
    reduced axes. *)
Theorem Summation_gradient_spreads_out_grad axes x out_grad in_shape vg :
  Forall (fun ax => 0 ≤ ax)%Z axes ->
  shape_of x = Some in_shape ->
  shape_of (summation x (AxesTuple axes)) = Some (shape vg) ->
  realize_cached_data out_grad = Some vg ->
  exists t v,
    gradient (Summation_init (AxesTuple axes)) out_grad (summation x (AxesTuple axes))
      = Some (Single t) /\
    realize_cached_data t = Some v /\
    shape v = in_shape /\
    forall idx, in_bounds in_shape idx ->
      item v idx = item vg (kept_axes 0 (Z.to_nat <$> axes) idx).
Proof.
  intros Hpos Hx Hnode Hg.
  rewrite shape_of_summation, Hx in Hnode. simpl in Hnode.
  destruct (mapM _ axes) as [reduced|] eqn:Hred; [|done]. simpl in Hnode.
  case_decide; [|done]. injection Hnode as Hshape.
  apply normalize_axes_nonneg in Hred; [|done]. subst axes.
  assert (forall i, Z.of_nat i ∈ Z.of_nat <$> reduced <-> i ∈ reduced) as Hmem.
  { intros i. apply (list_elem_of_fmap_inj Z.of_nat). }
  rewrite to_nat_of_nat_fmap.
  set (axes := Z.of_nat <$> reduced) in *.
  set (u := unit_axes 1 0 axes in_shape).
  assert (reshape_target (size_of (shape vg)) (unit_axes 1%Z 0 axes (as_tuple in_shape))
          = Some u) as Hu.
  { rewrite reshape_target_nonneg.
    - by rewrite unit_axes_to_nat.
    - apply unit_axes_nonneg.
    - rewrite unit_axes_to_nat, <- Hshape. symmetry. by apply size_of_kept_unit. }
  exists (broadcast_to (reshape out_grad (unit_axes 1%Z 0 axes (as_tuple in_shape)))
                       (as_tuple in_shape)),
         {| shape := in_shape;
            item := fun idx =>
              item vg (unravel (shape vg) (ravel u (broadcast_index u idx))) |}.
  split; [|split; [|split; [done|]]].
  - unfold summation, Summation_init. rewrite Summation_gradient_unfold, Hx.
    cbn [mbind option_bind]. by rewrite restored_shape_Some.
  - unfold broadcast_to, reshape. rewrite !realize_unary, Hg.
    cbn [mbind option_bind compute]. unfold array_api.reshape. rewrite Hu.
    cbn [mbind option_bind]. unfold array_api.broadcast_to, as_tuple.
    rewrite to_nat_shape_as_tuple. cbn [mbind option_bind shape].
    unfold u at 1. by rewrite broadcastable_unit_axes.
  - intros idx Hidx. simpl.
    pose proof (Forall2_length _ _ _ Hidx) as Hlen.
    rewrite broadcast_index_same_length by (unfold u; rewrite length_unit_axes; lia).
    unfold u. rewrite (ravel_unit_axes 0 axes reduced) by done.
    rewrite <- Hshape, unravel_ravel; [done|]. by apply in_bounds_kept_axes.
Qed.

(** Summing an array of shape (2, 3) over axis 1: the gradient at
    position (i, j) is the output gradient's entry at (i). *)
Lemma Summation_gradient_spreads_out_grad_witness :
  let x := Const (iota [2; 3]) in
  let out_grad := Const (iota [2]) in
  exists t v,
    gradient (Summation_init (AxesTuple [1%Z])) out_grad (summation x (AxesTuple [1%Z]))
      = Some (Single t) /\
    realize_cached_data t = Some v /\
    shape v = [2; 3] /\
    forall idx, in_bounds [2; 3] idx -> item v idx = item (iota [2]) (kept_axes 0 [1] idx).
Proof.
  intros x out_grad.
  assert (Forall (fun ax => 0 ≤ ax)%Z [1%Z]) as Hpos by (repeat constructor; lia).
  exact (Summation_gradient_spreads_out_grad [1%Z] x out_grad [2; 3] (iota [2])
           Hpos eq_refl eq_refl eq_refl).
Defined.

Lemma broadcast_index_ones n idx :
  length idx = n -> broadcast_index (replicate n 1) idx = replicate n 0.
Proof.
  intros <-. rewrite broadcast_index_same_length by by rewrite length_replicate.
  induction idx as [|i idx IH]; simpl; [done|]. by rewrite IH.
Qed.

Lemma ravel_ones_zeros n : ravel (replicate n 1) (replicate n 0) = 0.
Proof.
  induction n as [|n IH]; [done|]. simpl.
  rewrite ravel_cons by by rewrite !length_replicate. rewrite IH. lia.
Qed.

(** The gradient of a sum over all axes ([axes = None]) gives every
    position of the input the single entry of the output gradient. *)
Theorem Summation_all_gradient_is_constant x out_grad in_shape vg :
  shape_of x = Some in_shape ->
  realize_cached_data out_grad = Some vg ->
  shape vg = [] ->
  shape_of (summation x AxesNone) = Some [] /\
  exists t v,
    gradient (Summation_init AxesNone) out_grad (summation x AxesNone) = Some (Single t) /\
    realize_cached_data t = Some v /\
    shape v = in_shape /\
    forall idx, in_bounds in_shape idx -> item v idx = item vg [].
Proof.
  intros Hx Hg Hs. split.
  - unfold summation. rewrite shape_of_unary, Hx. simpl.
    by rewrite decide_True, kept_axes_all by apply NoDup_seq.
  - set (n := length in_shape).
    exists (broadcast_to (reshape out_grad (replicate n 1%Z)) (as_tuple in_shape)),
           {| shape := in_shape;
              item := fun idx =>
                item vg (unravel (shape vg)
                           (ravel (replicate n 1) (broadcast_index (replicate n 1) idx))) |}.
    split; [|split; [|split; [done|]]].
    + unfold summation, Summation_init. rewrite Summation_gradient_unfold, Hx.
      cbn [mbind option_bind]. unfold restored_shape, as_tuple.
      by rewrite length_fmap.
    + unfold broadcast_to, reshape. rewrite !realize_unary, Hg.
      cbn [mbind option_bind compute]. unfold array_api.reshape.
      rewrite reshape_target_nonneg.
      * cbn [mbind option_bind]. unfold array_api.broadcast_to, as_tuple.
        rewrite to_nat_shape_as_tuple. cbn [mbind option_bind shape].
        rewrite fmap_replicate. unfold n. by rewrite broadcastable_ones.
      * apply Forall_replicate. lia.
      * by rewrite fmap_replicate, size_of_ones, Hs.
    + intros idx Hidx. simpl.
      rewrite broadcast_index_ones by by apply Forall2_length in Hidx.
      by rewrite ravel_ones_zeros, Hs.
Qed.

Lemma Summation_all_gradient_is_constant_witness :
  let x := Const (iota [2; 3]) in
  exists t v,
    gradient (Summation_init AxesNone) (Const (full [] 7)) (summation x AxesNone)
      = Some (Single t) /\
    realize_cached_data t = Some v /\
    shape v = [2; 3] /\
    forall idx, in_bounds [2; 3] idx -> item v idx = 7%R.
Proof.
  intros x.
  exact (proj2 (Summation_all_gradient_is_constant x (Const (full [] 7)) [2; 3] (full [] 7)
                  eq_refl eq_refl eq_refl)).
Defined.

End summation_values.

(** ** The gradient rules are the derivatives of the forward rules *)

Section derivatives.
Import array_api ops.

(** A rule whose forward entries are [f] of the operand's and whose
    gradient entries are the output gradient's times [D] of the operand's
    is a vector-Jacobian product when [D] is the derivative of [f]. *)
Lemma pointwise_vjp_intro self (f D : R -> R) (dom : R -> Prop) :
  (forall vx, exists r, compute self [vx] = Some r /\
     forall idx, in_bounds (shape vx) idx -> item r idx = f (item vx idx)) ->
  (forall x g vx vg,
     realize_cached_data x = Some vx -> realize_cached_data g = Some vg ->
     shape vg = shape vx ->
     exists res t v,
       gradient self g (MakeOp self [x]) = Some res /\ grads_of res = [t] /\
       realize_cached_data t = Some v /\ shape v = shape vx /\
       forall idx, in_bounds (shape vx) idx ->
         item v idx = (item vg idx * D (item vx idx))%R) ->
  (forall a, dom a -> derivable_pt_lim f a (D a)) ->
  pointwise_vjp self f dom.
Proof.
  intros Hfwd Hbwd Hder x g vx vg Hx Hg Hs.
  destruct (Hfwd vx) as (r & Hr & Hri).
  destruct (Hbwd x g vx vg Hx Hg Hs) as (res & t & v & Hres & Ht & Hv & Hsv & Hvi).
  exists r, res, t, v. repeat (split; [done|]).
  intros idx Hidx. split; [by apply Hri|].
  intros Hdom. exists (D (item vx idx)). split; [by apply Hder|by apply Hvi].
Qed.

Lemma map_array_forward self f :
  (forall vx, compute self [vx] = Some (map_array f vx)) ->
  forall vx, exists r, compute self [vx] = Some r /\
    forall idx, in_bounds (shape vx) idx -> item r idx = f (item vx idx).
Proof. intros H vx. exists (map_array f vx). by split. Qed.

Lemma derivable_pt_lim_affine (c d x : R) :
  derivable_pt_lim (fun t => c * t + d)%R x c.
Proof.
  intros eps Heps. exists (mkposreal 1 Rlt_0_1). intros h Hh _.
  replace ((c * (x + h) + d - (c * x + d)) / h - c)%R with 0%R by (field; done).
  by rewrite Rabs_R0.
Qed.

(** [AddScalar], [MulScalar], [DivScalar] (by a scalar other than 0) and
    [Negate]: the gradient is the output gradient times the derivative of
    the scalar operation, 1, s, 1/s and -1. *)
Theorem scalar_gradients_are_derivatives (s : R) :
  pointwise_vjp (AddScalar s) (fun t => t + s)%R (fun _ => True) /\
  pointwise_vjp (MulScalar s) (fun t => t * s)%R (fun _ => True) /\
  (s ≠ 0%R -> pointwise_vjp (DivScalar s) (fun t => t / s)%R (fun _ => True)) /\
  pointwise_vjp Negate Ropp (fun _ => True).
Proof.
  split; [|split; [|split]].
  - apply (pointwise_vjp_intro _ _ (fun _ => 1%R)).
    + apply (map_array_forward _ (fun t => t + s)%R). by intros.
    + intros x g vx vg Hx Hg Hs. exists (Single g), g, vg.
      repeat (split; [done|]). intros idx _. lra.
    + intros a _. apply (derivable_pt_lim_ext (fun t => 1 * t + s)%R);
        [intros z; lra|apply derivable_pt_lim_affine].
  - apply (pointwise_vjp_intro _ _ (fun _ => s)).
    + apply (map_array_forward _ (fun t => t * s)%R). by intros.
    + intros x g vx vg Hx Hg Hs.
      exists (Tuple [Tensor_mul_scalar g s]), (Tensor_mul_scalar g s), (array_api.multiply_scalar vg s).
      split; [done|]. split; [done|].
      split; [unfold Tensor_mul_scalar; by rewrite realize_unary, Hg|].
      by split.
    + intros a _. apply (derivable_pt_lim_ext (fun t => s * t + 0)%R);
        [intros z; lra|apply derivable_pt_lim_affine].
  - intros _. apply (pointwise_vjp_intro _ _ (fun _ => (/ s)%R)).
    + apply (map_array_forward _ (fun t => t / s)%R). by intros.
    + intros x g vx vg Hx Hg Hs.
      exists (Single (Tensor_truediv_scalar g s)), (Tensor_truediv_scalar g s),
             (array_api.divide_scalar vg s).
      split; [done|]. split; [done|].
      split; [unfold Tensor_truediv_scalar; by rewrite realize_unary, Hg|].
      by split.
    + intros a _. apply (derivable_pt_lim_ext (fun t => / s * t + 0)%R);
        [intros z; unfold Rdiv; lra|apply derivable_pt_lim_affine].
  - apply (pointwise_vjp_intro _ _ (fun _ => (-1)%R)).
    + apply (map_array_forward _ Ropp). by intros.
    + intros x g vx vg Hx Hg Hs.
      exists (Single (negate g)), (negate g), (array_api.negative vg).
      split; [done|]. split; [done|].
      split; [unfold negate; by rewrite realize_unary, Hg|].
      split; [done|]. intros idx _. simpl. lra.
    + intros a _. apply (derivable_pt_lim_ext (fun t => -1 * t + 0)%R);
        [intros z; lra|apply derivable_pt_lim_affine].
Qed.

(** [MulScalar(3)] on the array 0..2 with output gradient 5: the
    gradient is 5 * 3 at every position. *)
Lemma scalar_gradients_are_derivatives_witness :
  exists t v,
    gradient (MulScalar 3) (Const (full [3] 5)) (mul_scalar (Const (iota [3])) 3)
      = Some (Tuple [t]) /\
    realize_cached_data t = Some v /\
    forall idx, in_bounds [3] idx ->
      exists l, derivable_pt_lim (fun t => t * 3)%R (item (iota [3]) idx) l /\
                item v idx = (5 * l)%R.
Proof.
  destruct (proj1 (proj2 (scalar_gradients_are_derivatives 3))
              (Const (iota [3])) (Const (full [3] 5)) (iota [3]) (full [3] 5)
              eq_refl eq_refl eq_refl)
    as (r & res & t & v & _ & Hres & Ht & Hv & _ & Hi).
  injection Hres as <-. injection Ht as <-.
  eexists _, v. split; [reflexivity|]. split; [exact Hv|].
  intros idx Hidx. exact (proj2 (Hi idx Hidx) I).
Defined.

(** [Exp]: the gradient is the output gradient times exp of the operand,
    the derivative of exp. *)
Theorem Exp_gradient_is_derivative :
  pointwise_vjp Exp Rtrigo_def.exp (fun _ => True).
Proof.
  apply (pointwise_vjp_intro _ _ Rtrigo_def.exp).
  - apply (map_array_forward _ Rtrigo_def.exp). by intros.
  - intros x g vx vg Hx Hg Hs.
    destruct (ewise_same_shape Rmult vg (array_api.exp vx)) as (v & Hv & Hsv & Hi); [done|].
    exists (Single (Tensor_mul g (exp x))), (Tensor_mul g (exp x)), v.
    split; [done|]. split; [done|]. split.
    { unfold Tensor_mul, exp. by rewrite realize_binary, Hg, realize_unary, Hx. }
    split; [congruence|]. intros idx Hidx. apply Hi. by rewrite Hs.
  - intros a _. apply derivable_pt_lim_exp.
Qed.

Lemma Exp_gradient_is_derivative_witness :
  exists t v,
    gradient Exp (Const (full [3] 5)) (exp (Const (iota [3]))) = Some (Single t) /\
    realize_cached_data t = Some v /\
    forall idx, in_bounds [3] idx ->
      item v idx = (5 * Rtrigo_def.exp (item (iota [3%nat]) idx))%R.
Proof.
  destruct (Exp_gradient_is_derivative
              (Const (iota [3])) (Const (full [3] 5)) (iota [3]) (full [3] 5)
              eq_refl eq_refl eq_refl)
    as (r & res & t & v & _ & Hres & Ht & Hv & _ & Hi).
  injection Hres as <-. injection Ht as <-.
  eexists _, v. split; [reflexivity|]. split; [exact Hv|].
  intros idx Hidx. destruct (proj2 (Hi idx Hidx) I) as (l & Hl & ->).
  f_equal. exact (uniqueness_limite _ _ _ _ Hl (derivable_pt_lim_exp _)).
Defined.

(** [Log]: the gradient is the output gradient divided by the operand,
    which is the output gradient times the derivative of the logarithm at
    every positive entry of the operand. *)
Theorem Log_gradient_is_derivative :
  pointwise_vjp Log ln (fun a => 0 < a)%R.
Proof.
  apply (pointwise_vjp_intro _ _ Rinv).
  - apply (map_array_forward _ ln). by intros.
  - intros x g vx vg Hx Hg Hs.
    destruct (ewise_same_shape Rdiv vg vx) as (v & Hv & Hsv & Hi); [done|].
    exists (Single (Tensor_truediv g x)), (Tensor_truediv g x), v.
    split; [done|]. split; [done|]. split.
    { unfold Tensor_truediv. by rewrite realize_binary, Hg, Hx. }
    split; [congruence|]. intros idx Hidx. apply Hi. by rewrite Hs.
  - intros a Ha. by apply derivable_pt_lim_ln.
Qed.

Lemma Log_gradient_is_derivative_witness :
  exists t v,
    gradient Log (Const (full [3] 5)) (log (Const (full [3] 2))) = Some (Single t) /\
    realize_cached_data t = Some v /\
    forall idx, in_bounds [3] idx -> item v idx = (5 * / 2)%R.
Proof.
  destruct (Log_gradient_is_derivative
              (Const (full [3] 2)) (Const (full [3] 5)) (full [3] 2) (full [3] 5)
              eq_refl eq_refl eq_refl)
    as (r & res & t & v & _ & Hres & Ht & Hv & _ & Hi).
  injection Hres as <-. injection Ht as <-.
  eexists _, v. split; [reflexivity|]. split; [exact Hv|].
  intros idx Hidx. destruct (proj2 (Hi idx Hidx) ltac:(simpl; lra)) as (l & Hl & ->).
  f_equal. apply (uniqueness_limite _ _ _ _ Hl). apply derivable_pt_lim_ln. simpl. lra.
Defined.

Lemma powerRZ_pred_pos (a : R) (p : positive) :
  powerRZ a (Z.pos p - 1) = (a ^ pred (Pos.to_nat p))%R.
Proof.
  rewrite pow_powerRZ. f_equal. lia.
Qed.

Lemma derivable_pt_lim_powerRZ (n : Z) (a : R) :
  (0 ≤ n)%Z \/ a ≠ 0%R ->
  derivable_pt_lim (fun t => powerRZ t n) a (IZR n * powerRZ a (n - 1))%R.
Proof.
  intros Hdom. destruct n as [|p|p].
  - replace (0 * powerRZ a (0 - 1))%R with 0%R by lra.
    apply (derivable_pt_lim_ext (fun t => 0 * t + 1)%R); [intros z; simpl; lra|].
    apply derivable_pt_lim_affine.
  - rewrite powerRZ_pred_pos.
    replace (IZR (Z.pos p)) with (INR (Pos.to_nat p)) by (by rewrite INR_IZR_INZ, positive_nat_Z).
    apply (derivable_pt_lim_pow a (Pos.to_nat p)).
  - destruct Hdom as [Hn|Ha]; [lia|].
    set (N := Pos.to_nat p).
    assert (0 < N) as HN by apply Pos2Nat.is_pos.
    assert (a ^ N ≠ 0)%R as HaN by by apply pow_nonzero.
    pose proof (derivable_pt_lim_div (fct_cte 1) (fun y => y ^ N)%R a 0 (INR N * a ^ pred N)
                  (derivable_pt_lim_const 1 a) (derivable_pt_lim_pow a N) HaN) as Hdiv.
    apply (derivable_pt_lim_ext (fct_cte 1 / (fun y => (y ^ N)%R))%F).
    { intros z. unfold div_fct, fct_cte. simpl. fold N. lra. }
    replace (IZR (Z.neg p) * powerRZ a (Z.neg p - 1))%R
      with ((0 * a ^ N - INR N * a ^ pred N * 1) / Rsqr (a ^ N))%R; [exact Hdiv|].
    assert (a ^ N = a * a ^ pred N)%R as HS.
    { replace N with (S (pred N)) at 1 by lia. done. }
    assert (powerRZ a (Z.neg p - 1) = / (a * a ^ N))%R as HR.
    { replace (Z.neg p - 1)%Z with (Z.neg (p + 1)) by lia.
      change (powerRZ a (Z.neg (p + 1))) with (/ a ^ Pos.to_nat (p + 1))%R.
      rewrite Pos2Nat.inj_add. fold N. change (Pos.to_nat 1) with 1.
      by rewrite Nat.add_1_r. }
    assert (IZR (Z.neg p) = - INR N)%R as HI.
    { rewrite INR_IZR_INZ. unfold N. rewrite positive_nat_Z. by rewrite <- opp_IZR. }
    assert (a ^ pred N ≠ 0)%R as HaP by by apply pow_nonzero.
    rewrite HR, HI, HS. unfold Rsqr. field. by split.
Qed.

(** [PowerScalar(n)]: the gradient is the output gradient times
    n a^(n-1), the derivative of the n-th power, for every exponent
    n >= 1 and, for an exponent n <= 0, at every entry other than 0. *)
Theorem PowerScalar_gradient_is_derivative (n : Z) :
  pointwise_vjp (PowerScalar n) (fun t => powerRZ t n) (fun a => (1 ≤ n)%Z \/ a ≠ 0%R).
Proof.
  apply (pointwise_vjp_intro _ _ (fun a => IZR n * powerRZ a (n - 1))%R).
  - apply (map_array_forward _ (fun t => powerRZ t n)). by intros.
  - intros x g vx vg Hx Hg Hs.
    destruct (ewise_same_shape Rmult (array_api.multiply_scalar vg (IZR n))
                (array_api.power vx (n - 1))) as (v & Hv & Hsv & Hi); [done|].
    exists (Single (Tensor_mul (Tensor_mul_scalar g (IZR n)) (Tensor_pow x (n - 1)))),
           (Tensor_mul (Tensor_mul_scalar g (IZR n)) (Tensor_pow x (n - 1))), v.
    split; [done|]. split; [done|]. split.
    { unfold Tensor_mul, Tensor_mul_scalar, Tensor_pow.
      by rewrite realize_binary, !realize_unary, Hg, Hx. }
    split; [simpl in Hsv; congruence|]. intros idx Hidx.
    rewrite Hi by (simpl; by rewrite Hs). simpl. lra.
  - intros a Ha. apply derivable_pt_lim_powerRZ. destruct Ha; [left; lia|by right].
Qed.

(** The gradient of the cube at the entries 2 is 5 * (3 * 2^2). *)
Lemma PowerScalar_gradient_is_derivative_witness :
  exists t v,
    gradient (PowerScalar 3) (Const (full [3] 5)) (power_scalar (Const (full [3] 2)) 3)
      = Some (Single t) /\
    realize_cached_data t = Some v /\
    forall idx, in_bounds [3] idx -> item v idx = (5 * (3 * powerRZ 2 2))%R.
Proof.
  destruct (PowerScalar_gradient_is_derivative 3
              (Const (full [3] 2)) (Const (full [3] 5)) (full [3] 2) (full [3] 5)
              eq_refl eq_refl eq_refl)
    as (r & res & t & v & _ & Hres & Ht & Hv & _ & Hi).
  injection Hres as <-. injection Ht as <-.
  eexists _, v. split; [reflexivity|]. split; [exact Hv|].
  intros idx Hidx.
  destruct (proj2 (Hi idx Hidx) ltac:(left; lia)) as (l & Hl & ->).
  f_equal. apply (uniqueness_limite _ _ _ _ Hl).
  apply (derivable_pt_lim_powerRZ 3 2). left. lia.
Defined.

Lemma derivable_pt_lim_relu (a : R) :
  a ≠ 0%R ->
  derivable_pt_lim (fun t => Rmax t 0) a (if Rlt_dec 0 a then 1 else 0)%R.
Proof.
  intros Ha. destruct (Rlt_dec 0 a) as [Hpos|Hneg].
  - apply (derivable_pt_lim_locally_ext id (fun t => Rmax t 0) a 0 (a + 1)).
    + lra.
    + intros z Hz. unfold id. symmetry. apply Rmax_left. lra.
    + apply derivable_pt_lim_id.
  - apply (derivable_pt_lim_locally_ext (fct_cte 0) (fun t => Rmax t 0) a (a - 1) 0).
    + lra.
    + intros z Hz. unfold fct_cte. symmetry. apply Rmax_right. lra.
    + apply derivable_pt_lim_const.
Qed.

(** [ReLU]: at every entry of the operand other than 0 the gradient is
    the output gradient times the derivative of max(t, 0): the output
    gradient itself where the entry is positive, 0 where it is negative. *)
Theorem ReLU_gradient_is_derivative :
  pointwise_vjp ReLU (fun t => Rmax t 0) (fun a => a ≠ 0%R).
Proof.
  apply (pointwise_vjp_intro _ _ (fun a => if Rlt_dec 0 a then 1 else 0)%R).
  - intros vx. destruct (ReLU_compute vx) as (r & Hr & _ & Hi).
    exists r. split; [done|]. intros idx Hidx.
    by rewrite Hi, broadcast_index_in_bounds.
  - intros x g vx vg Hx Hg Hs.
    destruct (ewise_same_shape Rmult vg (greater_scalar vx 0)) as (v & Hv & Hsv & Hi);
      [done|].
    exists (Single (Tensor_mul g (Const (greater_scalar vx 0)))),
           (Tensor_mul g (Const (greater_scalar vx 0))), v.
    split; [simpl; by rewrite Hx|]. split; [done|]. split.
    { unfold Tensor_mul. by rewrite realize_binary, Hg. }
    split; [congruence|]. intros idx Hidx. apply Hi. by rewrite Hs.
  - intros a Ha. by apply derivable_pt_lim_relu.
Qed.

(** At the entries -2 the gradient of ReLU is 5 * 0. *)
Lemma ReLU_gradient_is_derivative_witness :
  exists t v,
    gradient ReLU (Const (full [3] 5)) (relu (Const (full [3] (-2)))) = Some (Single t) /\
    realize_cached_data t = Some v /\
    forall idx, in_bounds [3] idx -> item v idx = (5 * 0)%R.
Proof.
  destruct (ReLU_gradient_is_derivative
              (Const (full [3] (-2))) (Const (full [3] 5)) (full [3] (-2)) (full [3] 5)
              eq_refl eq_refl eq_refl)
    as (r & res & t & v & _ & Hres & Ht & Hv & _ & Hi).
  injection Hres as <-. injection Ht as <-.
  eexists _, v. split; [reflexivity|]. split; [exact Hv|].
  intros idx Hidx. destruct (proj2 (Hi idx Hidx) ltac:(simpl; lra)) as (l & Hl & ->).
  f_equal. apply (uniqueness_limite _ _ _ _ Hl).
  pose proof (derivable_pt_lim_relu (-2) ltac:(lra)) as Hd.
  destruct (Rlt_dec 0 (-2)) as [Hpos|_]; [lra|exact Hd].
Defined.

(** A rule of two operands whose forward entries are [f] of the
    operands' and whose gradient entries are the output gradient's times
    [D1] and [D2] is a vector-Jacobian product when [D1] and [D2] are the
    partial derivatives of [f]. *)
Lemma pointwise_vjp2_intro self (f D1 D2 : R -> R -> R) (dom : R -> R -> Prop) ta tb :
  (forall va vb, compute self [va; vb] = ewise f va vb) ->
  (forall a b g, gradient self g (MakeOp self [a; b]) = Some (Tuple [ta g a b; tb g a b])) ->
  (forall a b g va vb vg,
     realize_cached_data a = Some va -> realize_cached_data b = Some vb ->
     realize_cached_data g = Some vg -> shape va = shape vb -> shape vg = shape va ->
     exists v1 v2,
       realize_cached_data (ta g a b) = Some v1 /\ realize_cached_data (tb g a b) = Some v2 /\
       shape v1 = shape va /\ shape v2 = shape vb /\
       forall idx, in_bounds (shape va) idx ->
         item v1 idx = (item vg idx * D1 (item va idx) (item vb idx))%R /\
         item v2 idx = (item vg idx * D2 (item va idx) (item vb idx))%R) ->
  (forall x y, dom x y ->
     derivable_pt_lim (fun t => f t y) x (D1 x y) /\
     derivable_pt_lim (fun t => f x t) y (D2 x y)) ->
  pointwise_vjp2 self f dom.
Proof.
  intros Hfwd Hgrad Hbwd Hder a b g va vb vg Ha Hb Hg Hab Hga.
  destruct (ewise_same_shape f va vb Hab) as (r & Hr & Hsr & Hri).
  destruct (Hbwd a b g va vb vg Ha Hb Hg Hab Hga) as (v1 & v2 & H1 & H2 & Hs1 & Hs2 & Hvi).
  exists r, (ta g a b), (tb g a b), v1, v2.
  split; [by rewrite Hfwd|]. repeat (split; [done|]).
  intros idx Hidx. split; [by apply Hri|]. intros Hdom.
  destruct (Hder _ _ Hdom) as [Hd1 Hd2]. destruct (Hvi idx Hidx) as [Hv1 Hv2].
  by exists (D1 (item va idx) (item vb idx)), (D2 (item va idx) (item vb idx)).
Qed.

(** [EWiseAdd] and [EWiseMul] on operands of one shape: the gradients
    are the output gradient times the partial derivatives, (1, 1) for the
    sum and (b, a) for the product. *)
Theorem EWiseAdd_EWiseMul_gradients_are_derivatives :
  pointwise_vjp2 EWiseAdd Rplus (fun _ _ => True) /\
  pointwise_vjp2 EWiseMul Rmult (fun _ _ => True).
Proof.
  split.
  - apply (pointwise_vjp2_intro _ _ (fun _ _ => 1%R) (fun _ _ => 1%R) _
             (fun g _ _ => g) (fun g _ _ => g)); try done.
    + intros a b g va vb vg Ha Hb Hg Hab Hga. exists vg, vg.
      repeat (split; [done || congruence|]). intros idx _. lra.
    + intros x y _. split.
      * apply (derivable_pt_lim_ext (fun t => 1 * t + y)%R); [intros z; lra|].
        apply derivable_pt_lim_affine.
      * apply (derivable_pt_lim_ext (fun t => 1 * t + x)%R); [intros z; lra|].
        apply derivable_pt_lim_affine.
  - apply (pointwise_vjp2_intro _ _ (fun _ y => y) (fun x _ => x) _
             (fun g _ b => Tensor_mul g b) (fun g a _ => Tensor_mul g a)); try done.
    + intros a b g va vb vg Ha Hb Hg Hab Hga.
      destruct (ewise_same_shape Rmult vg vb) as (v1 & Hv1 & Hs1 & Hi1); [congruence|].
      destruct (ewise_same_shape Rmult vg va) as (v2 & Hv2 & Hs2 & Hi2); [done|].
      exists v1, v2. unfold Tensor_mul. rewrite !realize_binary, Hg, Ha, Hb.
      split; [done|]. split; [done|]. split; [congruence|]. split; [congruence|].
      intros idx Hidx. rewrite Hi1, Hi2 by (by rewrite Hga). done.
    + intros x y _. split.
      * apply (derivable_pt_lim_ext (fun t => y * t + 0)%R); [intros z; lra|].
        apply derivable_pt_lim_affine.
      * apply (derivable_pt_lim_ext (fun t => x * t + 0)%R); [intros z; lra|].
        apply derivable_pt_lim_affine.
Qed.

(** [EWiseMul] at a = 2, b = 3 with output gradient 5: the gradients are
    5 * 3 and 5 * 2. *)
Lemma EWiseAdd_EWiseMul_gradients_are_derivatives_witness :
  exists ta tb v1 v2,
    gradient EWiseMul (Const (full [3] 5))
             (multiply (Const (full [3] 2)) (Const (full [3] 3))) = Some (Tuple [ta; tb]) /\
    realize_cached_data ta = Some v1 /\ realize_cached_data tb = Some v2 /\
    forall idx, in_bounds [3] idx ->
      item v1 idx = (5 * 3)%R /\ item v2 idx = (5 * 2)%R.
Proof.
  destruct (proj2 EWiseAdd_EWiseMul_gradients_are_derivatives
              (Const (full [3] 2)) (Const (full [3] 3)) (Const (full [3] 5))
              (full [3] 2) (full [3] 3) (full [3] 5) eq_refl eq_refl eq_refl eq_refl eq_refl)
    as (r & ta & tb & v1 & v2 & _ & Hgrad & H1 & H2 & _ & _ & Hi).
  exists ta, tb, v1, v2. split; [exact Hgrad|]. split; [exact H1|]. split; [exact H2|].
  intros idx Hidx. destruct (proj2 (Hi idx Hidx) I) as (l1 & l2 & Hd1 & Hd2 & -> & ->).
  split; f_equal.
  - apply (uniqueness_limite _ _ _ _ Hd1). simpl.
    apply (derivable_pt_lim_ext (fun t => 3 * t + 0)%R); [intros z; lra|].
    apply derivable_pt_lim_affine.
  - apply (uniqueness_limite _ _ _ _ Hd2). simpl.
    apply (derivable_pt_lim_ext (fun t => 2 * t + 0)%R); [intros z; lra|].
    apply derivable_pt_lim_affine.
Defined.

Lemma derivable_pt_lim_quotient_r (x y : R) :
  y ≠ 0%R -> derivable_pt_lim (fun t => x / t)%R y (- x / (y * y))%R.
Proof.
  intros Hy.
  pose proof (derivable_pt_lim_div (fct_cte x) id y 0 1
                (derivable_pt_lim_const x y) (derivable_pt_lim_id y) Hy) as Hdiv.
  replace (- x / (y * y))%R with ((0 * y - 1 * x) / Rsqr y)%R
    by (unfold Rsqr; field; done).
  exact Hdiv.
Qed.

(** [EWiseDiv] on operands of one shape: the gradients are the output
    gradient times the partial derivatives of the quotient, 1/b and
    -a/b^2, at every position where the denominator is not 0. *)
Theorem EWiseDiv_gradient_is_derivative :
  pointwise_vjp2 EWiseDiv Rdiv (fun _ y => y ≠ 0%R).
Proof.
  apply (pointwise_vjp2_intro _ _ (fun _ y => / y)%R (fun x y => - x / (y * y))%R _
           (fun g _ b => Tensor_truediv g b)
           (fun g a b => Tensor_truediv (Tensor_mul (Tensor_neg g) a) (Tensor_pow b 2)));
    try done.
  - intros a b g va vb vg Ha Hb Hg Hab Hga.
    destruct (ewise_same_shape Rdiv vg vb) as (v1 & Hv1 & Hs1 & Hi1); [congruence|].
    destruct (ewise_same_shape Rmult (negative vg) va) as (vn & Hvn & Hsn & Hin); [done|].
    destruct (ewise_same_shape Rdiv vn (power vb 2)) as (v2 & Hv2 & Hs2 & Hi2).
    { rewrite Hsn. simpl. congruence. }
    exists v1, v2. unfold Tensor_truediv, Tensor_mul, Tensor_neg, Tensor_pow.
    rewrite !realize_binary, !realize_unary, Hg, Ha, Hb. simpl.
    unfold array_api.divide, array_api.multiply. rewrite Hv1, Hvn. simpl. rewrite Hv2.
    split; [done|]. split; [done|]. split; [congruence|].
    split; [rewrite Hs2, Hsn; simpl; congruence|].
    intros idx Hidx. split.
    + rewrite Hi1 by (by rewrite Hga). done.
    + rewrite Hi2 by (rewrite Hsn; simpl; by rewrite Hga).
      rewrite Hin by (simpl; by rewrite Hga).
      unfold power, negative, map_array. cbn [item].
      rewrite powerRZ_2. unfold Rdiv. lra.
  - intros x y Hy. split.
    + apply (derivable_pt_lim_ext (fun t => / y * t + 0)%R);
        [intros z; unfold Rdiv; lra|apply derivable_pt_lim_affine].
    + by apply derivable_pt_lim_quotient_r.
Qed.

(** [EWiseDiv] at a = 3, b = 2 with output gradient 6: the gradients are
    6 * (1/2) and 6 * (-3/4). *)
Lemma EWiseDiv_gradient_is_derivative_witness :
  exists ta tb v1 v2,
    gradient EWiseDiv (Const (full [3] 6))
             (divide (Const (full [3] 3)) (Const (full [3] 2))) = Some (Tuple [ta; tb]) /\
    realize_cached_data ta = Some v1 /\ realize_cached_data tb = Some v2 /\
    forall idx, in_bounds [3] idx ->
      item v1 idx = (6 * / 2)%R /\ item v2 idx = (6 * (- 3 / (2 * 2)))%R.
Proof.
  destruct (EWiseDiv_gradient_is_derivative
              (Const (full [3] 3)) (Const (full [3] 2)) (Const (full [3] 6))
              (full [3] 3) (full [3] 2) (full [3] 6) eq_refl eq_refl eq_refl eq_refl eq_refl)
    as (r & ta & tb & v1 & v2 & _ & Hgrad & H1 & H2 & _ & _ & Hi).
  exists ta, tb, v1, v2. split; [exact Hgrad|]. split; [exact H1|]. split; [exact H2|].
  intros idx Hidx.
  destruct (proj2 (Hi idx Hidx) ltac:(simpl; lra)) as (l1 & l2 & Hd1 & Hd2 & -> & ->).
  split; f_equal.
  - apply (uniqueness_limite _ _ _ _ Hd1). simpl.
    apply (derivable_pt_lim_ext (fun t => / 2 * t + 0)%R); [intros z; unfold Rdiv; lra|].
    apply derivable_pt_lim_affine.
  - apply (uniqueness_limite _ _ _ _ Hd2). simpl.
    apply derivable_pt_lim_quotient_r. lra.
Defined.

End derivatives.

(** ** Values of compositions *)

Section composition_values.
Import array_api ops.

(** The product of two matrices, entry by entry. *)
Lemma matmul_matrices a b m k n :
  shape a = [m; k] -> shape b = [k; n] ->
  exists r, array_api.matmul a b = Some r /\ shape r = [m; n] /\
    forall i j, item r [i; j] =
      sum_list ((fun t => item a [i; t] * item b [t; j])%R <$> seq 0 k).
Proof.
  intros Ha Hb. unfold array_api.matmul, ndim. rewrite Ha, Hb. simpl.
  rewrite decide_True by done. simpl. eexists. split; [done|]. by split.
Qed.

Lemma swapaxes_matrix a m k :
  shape a = [m; k] ->
  exists r, swapaxes a (-2) (-1) = Some r /\ shape r = [k; m] /\
    forall i j, item r [j; i] = item a [i; j].
Proof.
  intros Ha. unfold swapaxes, ndim. rewrite Ha. simpl. eexists. by split.
Qed.

(** [MatMul.gradient] on two matrices sums no axis and returns
    [g @ transpose(b)] and [transpose(a) @ g]: the gradient of [a] at
    (i, t) is the sum over j of g(i, j) b(t, j), and the gradient of [b] at
    (t, j) is the sum over i of a(i, t) g(i, j). *)
Theorem MatMul_gradient_entries lhs rhs out_grad va vb vg m k n :
  realize_cached_data lhs = Some va -> realize_cached_data rhs = Some vb ->
  realize_cached_data out_grad = Some vg ->
  shape va = [m; k] -> shape vb = [k; n] -> shape vg = [m; n] ->
  exists v1 v2,
    gradient MatMul out_grad (matmul lhs rhs) =
      Some (Tuple [matmul out_grad (transpose rhs None);
                   matmul (transpose lhs None) out_grad]) /\
    realize_cached_data (matmul out_grad (transpose rhs None)) = Some v1 /\
    realize_cached_data (matmul (transpose lhs None) out_grad) = Some v2 /\
    shape v1 = [m; k] /\ shape v2 = [k; n] /\
    (forall i t, item v1 [i; t] =
       sum_list ((fun j => item vg [i; j] * item vb [t; j])%R <$> seq 0 n)) /\
    (forall t j, item v2 [t; j] =
       sum_list ((fun i => item va [i; t] * item vg [i; j])%R <$> seq 0 m)).
Proof.
  intros Hl Hr Hg Ha Hb Hgs.
  destruct (swapaxes_matrix vb k n Hb) as (vbt & Hvbt & Hsbt & Hibt).
  destruct (swapaxes_matrix va m k Ha) as (vat & Hvat & Hsat & Hiat).
  destruct (matmul_matrices vg vbt m n k Hgs Hsbt) as (v1 & Hv1 & Hs1 & Hi1).
  destruct (matmul_matrices vat vg k m n Hsat Hgs) as (v2 & Hv2 & Hs2 & Hi2).
  assert (realize_cached_data (matmul out_grad (transpose rhs None)) = Some v1) as H1.
  { unfold matmul, transpose. rewrite realize_binary, Hg, realize_unary, Hr.
    cbn [mbind option_bind compute]. rewrite Hvbt. cbn [mbind option_bind]. done. }
  assert (realize_cached_data (matmul (transpose lhs None) out_grad) = Some v2) as H2.
  { unfold matmul, transpose. rewrite realize_binary, Hg, realize_unary, Hl.
    cbn [mbind option_bind compute]. rewrite Hvat. cbn [mbind option_bind]. done. }
  exists v1, v2. split; [|split; [done|split; [done|split; [done|split; [done|split]]]]].
  - unfold matmul at 1. cbn [gradient inputs_of]. unfold shape_of.
    rewrite H1, H2, Hl, Hr. simpl. rewrite Hs1, Hs2, Ha, Hb. simpl. done.
  - intros i t. rewrite Hi1. f_equal. apply list_fmap_ext. intros _ j _. simpl.
    by rewrite Hibt.
  - intros t j. rewrite Hi2. f_equal. apply list_fmap_ext. intros _ i _. simpl.
    by rewrite Hiat.
Qed.

(** A (2, 3) matrix times a (3, 4) matrix. *)
Lemma MatMul_gradient_entries_witness :
  let lhs := Const (iota [2; 3]) in
  let rhs := Const (iota [3; 4]) in
  let out_grad := Const (full [2; 4] 1) in
  exists v1 v2,
    realize_cached_data (matmul out_grad (transpose rhs None)) = Some v1 /\
    realize_cached_data (matmul (transpose lhs None) out_grad) = Some v2 /\
    shape v1 = [2; 3] /\ shape v2 = [3; 4] /\
    (forall i t, item v1 [i; t] =
       sum_list ((fun j => 1 * item (iota [3; 4]%nat) [t; j])%R <$> seq 0 4)).
Proof.
  intros lhs rhs out_grad.
  destruct (MatMul_gradient_entries lhs rhs out_grad (iota [2; 3]) (iota [3; 4])
              (full [2; 4] 1) 2 3 4 eq_refl eq_refl eq_refl eq_refl eq_refl eq_refl)
    as (v1 & v2 & _ & H1 & H2 & Hs1 & Hs2 & Hi1 & _).
  exists v1, v2. repeat (split; [assumption|]). exact Hi1.
Defined.

(** The scalar operators at their neutral scalars, and [Negate] twice,
    give back the value of the operand: [x + 0], [x * 1], [x / 1],
    [x ** 1] and [-(-x)]. *)
Theorem neutral_scalars_are_identities x vx :
  realize_cached_data x = Some vx ->
  (exists v, realize_cached_data (add_scalar x 0) = Some v /\ array_equal v vx) /\
  (exists v, realize_cached_data (mul_scalar x 1) = Some v /\ array_equal v vx) /\
  (exists v, realize_cached_data (divide_scalar x 1) = Some v /\ array_equal v vx) /\
  (exists v, realize_cached_data (power_scalar x 1) = Some v /\ array_equal v vx) /\
  (exists v, realize_cached_data (negate (negate x)) = Some v /\ array_equal v vx).
Proof.
  intros Hx.
  repeat split; eexists;
    unfold add_scalar, mul_scalar, divide_scalar, power_scalar, negate;
    rewrite !realize_unary, Hx; simpl; (split; [done|]); (split; [done|]);
    intros idx _; simpl; lra.
Qed.

Lemma neutral_scalars_are_identities_witness :
  exists v, realize_cached_data (negate (negate (Const (iota [2; 3])))) = Some v /\
            array_equal v (iota [2; 3]).
Proof.
  exact (proj2 (proj2 (proj2 (proj2
    (neutral_scalars_are_identities (Const (iota [2; 3])) (iota [2; 3]) eq_refl))))).
Defined.

(** [EWiseAdd] and [EWiseMul] do not depend on the order of their
    operands, also when the operands are broadcast. *)
Theorem EWiseAdd_EWiseMul_commute a b va vb :
  realize_cached_data a = Some va -> realize_cached_data b = Some vb ->
  (forall v, realize_cached_data (add a b) = Some v ->
     exists v', realize_cached_data (add b a) = Some v' /\ array_equal v' v) /\
  (forall v, realize_cached_data (multiply a b) = Some v ->
     exists v', realize_cached_data (multiply b a) = Some v' /\ array_equal v' v).
Proof.
  intros Ha Hb.
  split; intros v; unfold add, multiply; rewrite !realize_binary, Ha, Hb; simpl;
    unfold array_api.add, array_api.multiply, ewise;
    rewrite (broadcast_shapes_comm (shape vb));
    (destruct (broadcast_shapes (shape va) (shape vb)) as [o|]; [|done]);
    simpl; intros; simplify_eq; (eexists; split; [done|]);
    (split; [done|]); intros idx _; simpl; lra.
Qed.

Lemma EWiseAdd_EWiseMul_commute_witness :
  let a := Const (iota [2; 3]) in
  let b := Const (iota [3]) in
  shape_of (add a b) = Some [2; 3] /\
  forall v, realize_cached_data (add a b) = Some v ->
    exists v', realize_cached_data (add b a) = Some v' /\ array_equal v' v.
Proof.
  intros a b. split; [reflexivity|].
  exact (proj1 (EWiseAdd_EWiseMul_commute a b (iota [2; 3]) (iota [3]) eq_refl eq_refl)).
Defined.

Lemma reduction_axes_same (s : list Z) : reduction_axes s s = [].
Proof.
  unfold reduction_axes, left_pad_ones. rewrite Nat.sub_diag. simpl.
  induction (seq 0 (length s)) as [|i l IH]; [done|].
  by rewrite filter_cons_False by (intros Hne; by apply Hne).
Qed.

Lemma kept_axes_nil {A} pos (s : list A) : kept_axes pos [] s = s.
Proof.
  revert pos. induction s as [|d s IH]; intros pos; simpl; [done|].
  by rewrite IH.
Qed.

Lemma reduction_indices_nil pos (s idx : list nat) :
  length idx = length s -> reduction_indices pos [] s idx = [idx].
Proof.
  revert pos idx. induction s as [|d s IH]; intros pos [|i idx] Hlen; simplify_eq/=; [done|].
  by rewrite IH.
Qed.

(** Broadcasting to the operand's own shape gives back the value of the
    operand, and its gradient sums the output gradient over the empty
    tuple of axes and has the value of the output gradient. *)
Theorem BroadcastTo_own_shape_is_identity x out_grad vx vg :
  realize_cached_data x = Some vx ->
  realize_cached_data out_grad = Some vg ->
  shape vg = shape vx ->
  (exists v, realize_cached_data (broadcast_to x (as_tuple (shape vx))) = Some v /\
             array_equal v vx) /\
  exists t v,
    gradient (BroadcastTo (as_tuple (shape vx))) out_grad
             (broadcast_to x (as_tuple (shape vx))) = Some (Single t) /\
    t = reshape (summation out_grad (AxesTuple [])) (as_tuple (shape vx)) /\
    realize_cached_data t = Some v /\
    array_equal v vg.
Proof.
  intros Hx Hg Hs. split.
  - unfold broadcast_to. rewrite realize_unary, Hx. cbn [mbind option_bind compute].
    unfold array_api.broadcast_to, as_tuple. rewrite to_nat_shape_as_tuple.
    cbn [mbind option_bind]. rewrite broadcastable_to_refl.
    eexists. split; [done|]. split; [done|]. simpl. intros idx Hidx.
    by rewrite broadcast_index_in_bounds.
  - exists (reshape (summation out_grad (AxesTuple [])) (as_tuple (shape vx))),
           {| shape := shape vx;
              item := fun idx =>
                sum_list (item vg <$>
                  reduction_indices 0 [] (shape vg)
                    (unravel (kept_axes 0 [] (shape vg)) (ravel (shape vx) idx))) |}.
    split; [|split; [done|split]].
    + unfold broadcast_to. cbn [gradient inputs_of]. simpl lookup.
      cbn [mbind option_bind]. unfold shape_of at 1. rewrite Hx. simpl fmap.
      cbn [mbind option_bind]. rewrite differing_axes_gradient.
      cbn [mbind option_bind]. unfold as_tuple. by rewrite reduction_axes_same.
    + unfold reshape, summation, Summation_init. rewrite !realize_unary, Hg.
      cbn [mbind option_bind compute]. unfold array_api.sum. simpl mapM.
      cbn [mbind option_bind mret option_ret]. rewrite decide_True by constructor.
      cbn [mbind option_bind]. unfold array_api.reshape. simpl shape.
      rewrite kept_axes_nil, Hs. unfold as_tuple. rewrite reshape_target_as_tuple.
      done.
    + split; [done|]. simpl. intros idx Hidx.
      rewrite kept_axes_nil, Hs, unravel_ravel by done.
      rewrite reduction_indices_nil by by apply Forall2_length in Hidx.
      simpl. lra.
Qed.

Lemma BroadcastTo_own_shape_is_identity_witness :
  let x := Const (iota [2; 3]) in
  let out_grad := Const (full [2; 3] 5) in
  (exists v, realize_cached_data (broadcast_to x (as_tuple [2; 3])) = Some v /\
             array_equal v (iota [2; 3])) /\
  exists v,
    realize_cached_data (reshape (summation out_grad (AxesTuple [])) (as_tuple [2; 3]))
      = Some v /\
    array_equal v (full [2; 3] 5).
Proof.
  intros x out_grad.
  destruct (BroadcastTo_own_shape_is_identity x out_grad (iota [2; 3]) (full [2; 3] 5)
              eq_refl eq_refl eq_refl) as [Hfwd (t & v & _ & -> & Hv & Heq)].
  split; [exact Hfwd|]. exists v. split; [exact Hv|exact Heq].
Defined.

End composition_values.


(** ** What [gradient] returns *)

Section gradient_results.
Import array_api ops.

Local Ltac operand_shapes Hin :=
  simpl in Hin;
  repeat match type of Hin with
         | context [shape_of ?t] =>
             let Ht := fresh "Hshape" in
             destruct (shape_of t) eqn:Ht; simpl in Hin
         end;
  unfold mret, option_ret in Hin; simplify_eq/=.

Lemma computable_of_shape t s : shape_of t = Some s -> computable t.
Proof. intros Ht. destruct (shape_of_realize _ _ Ht) as (v & Hv & _). by exists v. Qed.

Lemma computable_one t s : shape_of t = Some s -> Forall computable [t].
Proof. intros Ht. constructor; [by eapply computable_of_shape|constructor]. Qed.

Lemma computable_two t1 t2 s1 s2 :
  shape_of t1 = Some s1 -> shape_of t2 = Some s2 -> Forall computable [t1; t2].
Proof.
  intros H1 H2. constructor; [by eapply computable_of_shape|]. by eapply computable_one.
Qed.

(** An elementwise product or quotient of two nodes whose shapes
    broadcast has the broadcast shape. *)
Lemma shape_of_ewise_broadcast op t u st su o :
  op = EWiseMul \/ op = EWiseDiv ->
  shape_of t = Some st -> shape_of u = Some su ->
  broadcast_shapes st su = Some o -> shape_of (MakeOp op [t; u]) = Some o.
Proof.
  intros Hop Ht Hu Ho. rewrite shape_of_binary, Ht, Hu.
  by destruct Hop as [-> | ->].
Qed.

(** [MatMul.gradient] on matrices or batches of matrices returns two
    nodes, each the raw product or its sum over leading axes, and both can
    be computed. *)
Lemma MatMul_gradient_computable lhs rhs g sa sb s :
  shape_of lhs = Some sa -> shape_of rhs = Some sb ->
  matmul_shape sa sb = Some s -> shape_of g = Some s ->
  2 ≤ length sa -> 2 ≤ length sb ->
  exists t1 t2,
    gradient MatMul g (MakeOp MatMul [lhs; rhs]) = Some (Tuple [t1; t2]) /\
    batch_reduced (matmul g (transpose rhs None)) t1 /\
    batch_reduced (matmul (transpose lhs None) g) t2 /\
    Forall computable [t1; t2].
Proof.
  intros Hl Hr Hs Hg Hla Hlb.
  destruct (split_last_two _ Hla) as (m & k & Hsa).
  destruct (split_last_two _ Hlb) as (k' & n & Hsb).
  revert Hsa Hsb. generalize (batch_axes sa) (batch_axes sb). intros ba bb -> ->.
  rewrite matmul_shape_matrices in Hs. case_decide as Hk; [|done]. subst k'.
  destruct (broadcast_shapes ba bb) as [o|] eqn:Ho; [|done]. simplify_eq/=.
  pose proof (broadcast_shapes_length _ _ _ Ho) as Hlen.
  pose proof (shape_of_transpose_None _ _ _ _ Hl) as Hlt.
  pose proof (shape_of_transpose_None _ _ _ _ Hr) as Hrt.
  assert (shape_of (matmul g (transpose rhs None)) = Some (o ++ [m; k])) as H1.
  { apply (shape_of_matmul _ _ _ _ _ _ _ o Hg Hrt). by eapply broadcast_shapes_absorb_r. }
  assert (shape_of (matmul (transpose lhs None) g) = Some (o ++ [k; n])) as H2.
  { apply (shape_of_matmul _ _ _ _ _ _ _ o Hlt Hg). by eapply broadcast_shapes_absorb_l. }
  rewrite H1, Hl, H2, Hr. cbn [mbind option_bind].
  eexists _, _. split; [done|].
  split; [|split].
  - case_decide; [right; eexists; split; [|done]; lia|by left].
  - case_decide; [right; eexists; split; [|done]; lia|by left].
  - eapply computable_two.
    + apply restore_leading_axes_by with (k := take (length o - length ba) o)
                                         (b := drop (length o - length ba) o ++ [m; k]).
      * by rewrite H1, app_assoc, take_drop.
      * rewrite !length_app, length_take. simpl. lia.
    + apply restore_leading_axes_by with (k := take (length o - length bb) o)
                                         (b := drop (length o - length bb) o ++ [k; n]).
      * by rewrite H2, app_assoc, take_drop.
      * rewrite !length_app, length_take. simpl. lia.
Qed.

(** C5 (amended): on every valid application, with the operands of
    [MatMul] of rank at least 2 and the axes of [Summation] absent or
    counted from the front, [gradient] returns and every node it returns
    can be computed; for an operator of one operand other than [MulScalar]
    it returns a single node, for [MulScalar] a tuple holding one node,
    and for an operator of two operands a tuple of two nodes, the gradient
    of the left operand first: (g, g) for [EWiseAdd], (g * b, g * a) for
    [EWiseMul], (g / b, -g * a / b ** 2) for [EWiseDiv], and
    (g @ transpose(b), transpose(a) @ g), each as it is or summed over
    leading axes, for [MatMul]. *)
Theorem gradient_result_kinds self inputs out_grad in_shapes :
  valid_application self inputs out_grad ->
  mapM shape_of inputs = Some in_shapes ->
  gradient_computable_on self in_shapes ->
  exists r, gradient self out_grad (MakeOp self inputs) = Some r /\
            gradient_result_shape self out_grad inputs r /\
            length (grads_of r) = length inputs /\
            Forall computable (grads_of r).
Proof.
  intros (s & Hnode & Hg) Hin Hon.
  apply shape_of_MakeOp_inv in Hnode as (in_shapes' & Hin' & Hcomp & Hlen).
  rewrite Hin in Hin'. injection Hin' as <-.
  destruct self; destruct inputs as [|a [|b [|c inputs]]]; try done;
    clear Hlen; operand_shapes Hin; try done.
  - (* EWiseAdd *)
    eexists. split; [done|]. split; [done|]. split; [done|]. by eapply computable_two.
  - (* AddScalar *)
    eexists. split; [done|]. split; [by eexists|]. split; [done|]. by eapply computable_one.
  - (* EWiseMul *)
    destruct (broadcast_shapes_absorb _ _ _ Hcomp) as [Hsa Hsb].
    eexists. split; [done|]. split; [done|]. split; [done|].
    eapply computable_two; eapply shape_of_ewise_broadcast; eauto.
  - (* MulScalar *)
    eexists. split; [done|]. split; [by eexists|]. split; [done|].
    eapply computable_one. by apply shape_of_map.
  - (* PowerScalar *)
    eexists. split; [done|]. split; [by eexists|]. split; [done|].
    eapply computable_one.
    apply shape_of_ewise_same; [by auto| |]; by apply shape_of_map.
  - (* EWiseDiv *)
    destruct (broadcast_shapes_absorb _ _ _ Hcomp) as [Hsa Hsb].
    eexists. split; [done|]. split; [done|]. split; [done|].
    eapply computable_two.
    + eapply shape_of_ewise_broadcast; eauto.
    + eapply shape_of_ewise_broadcast;
        [by auto| |by apply shape_of_map; [|exact Hshape]|exact Hsb].
      eapply shape_of_ewise_broadcast;
        [by auto|by apply shape_of_map; [|exact Hg]|exact Hshape0|exact Hsa].
  - (* DivScalar *)
    eexists. split; [done|]. split; [by eexists|]. split; [done|].
    eapply computable_one. by apply shape_of_map.
  - (* Transpose *)
    eexists. split; [done|]. split; [by eexists|]. split; [done|].
    eapply computable_one. by eapply grad_shape_Transpose.
  - (* Reshape *)
    rewrite Hshape. simpl. eexists. split; [done|]. split; [by eexists|].
    split; [done|]. eapply computable_one. by eapply grad_shape_Reshape.
  - (* BroadcastTo *)
    rewrite Hshape. simpl. rewrite differing_axes_gradient. simpl.
    eexists. split; [done|]. split; [by eexists|]. split; [done|].
    eapply computable_one. by eapply grad_shape_BroadcastTo.
  - (* Summation *)
    rewrite Hshape. simpl. destruct axes as [axes|].
    + rewrite restored_shape_Some. simpl.
      eexists. split; [done|]. split; [by eexists|]. split; [done|].
      eapply computable_one. by eapply grad_shape_Summation_Some.
    + eexists. split; [done|]. split; [by eexists|]. split; [done|].
      eapply computable_one. by eapply grad_shape_Summation_None.
  - (* MatMul *)
    simpl in Hon.
    apply Forall_cons in Hon as [Hla Hon]. apply Forall_cons in Hon as [Hlb _].
    destruct (MatMul_gradient_computable a b out_grad _ _ s Hshape0 Hshape Hcomp Hg Hla Hlb)
      as (t1 & t2 & Hr & H1 & H2 & Hc).
    exists (Tuple [t1; t2]). split; [done|]. split; [by exists t1, t2|]. by split.
  - (* Negate *)
    eexists. split; [done|]. split; [by eexists|]. split; [done|].
    eapply computable_one. by apply shape_of_map.
  - (* Log *)
    eexists. split; [done|]. split; [by eexists|]. split; [done|].
    eapply computable_one. apply shape_of_ewise_same; by auto.
  - (* Exp *)
    eexists. split; [done|]. split; [by eexists|]. split; [done|].
    eapply computable_one.
    apply shape_of_ewise_same; [by auto|done|]. by apply shape_of_map.
  - (* ReLU *)
    destruct (shape_of_realize _ _ Hshape) as (input & Hinput & Hsi).
    destruct (broadcast_shapes_absorb _ _ _ Hcomp) as [Hsa _].
    rewrite Hinput. simpl. eexists. split; [done|]. split; [by eexists|].
    split; [done|]. eapply computable_one.
    eapply shape_of_ewise_broadcast; [by auto|exact Hg| |exact Hsa].
    rewrite shape_of_Const. simpl. by f_equal.
Qed.

(** The statement of C5 (amended) at [a] of shape (3, 4) times [b] of
    shape (2, 3, 4, 5). *)
Lemma gradient_result_kinds_witness :
  let inputs := [Const (full [3; 4] 1); Const (full [2; 3; 4; 5] 1)] in
  let out_grad := Const (full [2; 3; 3; 5] 1) in
  valid_application MatMul inputs out_grad /\
  gradient_computable_on MatMul [[3; 4]; [2; 3; 4; 5]] /\
  exists r, gradient MatMul out_grad (MakeOp MatMul inputs) = Some r /\
            gradient_result_shape MatMul out_grad inputs r /\
            length (grads_of r) = 2 /\
            Forall computable (grads_of r).
Proof.
  intros inputs out_grad.
  assert (valid_application MatMul inputs out_grad) as Hvalid.
  { exists [2; 3; 3; 5]. split; reflexivity. }
  assert (gradient_computable_on MatMul [[3; 4]; [2; 3; 4; 5]]) as Hon.
  { repeat constructor; simpl; lia. }
  split; [exact Hvalid|]. split; [exact Hon|].
  exact (gradient_result_kinds MatMul inputs out_grad [[3; 4]; [2; 3; 4; 5]]
           Hvalid eq_refl Hon).
Defined.

End gradient_results.
